(** * A model of the collaboration client [OTClient]

    Source: src/examples/react/components/editor/ot/client.ts

    The class is event driven: its methods and the listeners it installs run
    to completion, one after the other.  Each of them is embedded as a
    function on the record [OTClient], which holds the fields of the class
    together with the part of the host the code talks to: the transports
    created by [connect], the pending timers, and a chronological [trace] of
    every call the code makes to the outside (event emission, socket calls,
    timer calls, calls into the editor engine). *)

From Stdlib Require Import ZArith String List.
From stdpp Require Import base option list gmap strings.

Local Open Scope Z_scope.
Local Open Scope string_scope.
Local Open Scope list_scope.

(** ** Data *)

(** Values of type [any] (message bodies, object literals). *)
#[warnings="-register-all"]
Inductive value :=
| VUndefined
| VNum (z : Z)
| VStr (s : string)
| VObj (fields : list (string * value)).

(** [o[k]] on an object literal. *)
Fixpoint obj_get (k : string) (o : list (string * value)) : value :=
  match o with
  | [] => VUndefined
  | (k', v) :: o' => if String.eqb k k' then v else obj_get k o'
  end.

(** [{...o, k: v}]: an existing key keeps its place and takes the new value,
    a new key goes last. *)
Fixpoint obj_set (k : string) (v : value) (o : list (string * value))
  : list (string * value) :=
  match o with
  | [] => [(k, v)]
  | (k', v') :: o' =>
      if String.eqb k k' then (k, v) :: o' else (k', v') :: obj_set k v o'
  end.

(** A string that may be [undefined]. *)
Definition opt_str (o : option string) : value :=
  match o with
  | Some s => VStr s
  | None => VUndefined
  end.

(** What the [color] of a member holds.  The server and the engine give a
    string or leave it out; the copies that [normalizeMembers] makes can
    also hold there a member of [Object.prototype], named here by its
    property name. *)
Inductive Color :=
| CUndefined
| CStr (c : string)
| CInherited (name : string).

(** [type Member] (lines 8-15); [id] and [iid] are the integers the server
    sends, [color] is optional. *)
Record Member := mkMember {
  id : Z;
  avatar : string;
  name : string;
  iid : Z;
  uuid : string;
  color : Color;
}.

(** [STATUS] (lines 16-22). *)
Module STATUS.
Definition init := "init".
Definition loaded := "loaded".
Definition active := "active".
Definition exit := "exit".
Definition error := "error".
End STATUS.

(** [EVENT] (lines 24-30). *)
Module EVENT.
Definition inactive := "inactive".
Definition error := "error".
Definition membersChange := "membersChange".
Definition statusChange := "statusChange".
Definition message := "message".
End EVENT.

(** [type ERROR] (lines 32-37); the transport's error event is opaque. *)
Record ERROR := mkERROR {
  code : string;
  level : string;
  message : string;
  error : option value;
}.

(** [ERROR_CODE] (lines 39-50). *)
Module ERROR_CODE.
Definition INIT_FAILED := "INIT_FAILED".
Definition SAVE_FAILED := "SAVE_FAILED".
Definition PUBLISH_FAILED := "PUBLISH_FAILED".
Definition DISCONNECTED := "DISCONNECTED".
Module STATUS_CODE.
Definition TIMEOUT := 4001.
Definition FORCE_DISCONNECTED := 4002.
End STATUS_CODE.
Definition CONNECTION_ERROR := "CONNECTION_ERROR".
Definition COLLAB_DOC_ERROR := "COLLAB_DOC_ERROR".
End ERROR_CODE.

(** [ERROR_LEVEL] (lines 52-56). *)
Module ERROR_LEVEL.
Definition FATAL := "FATAL".
Definition WARNING := "WARNING".
Definition NOTICE := "NOTICE".
End ERROR_LEVEL.

(** The sharedb document handle kept in [this.doc]. *)
Record Doc := mkDoc {
  doc_collection : string;
  doc_id : string;
}.

(** [this.heartbeat]: the handle of a timer and the time of the last
    heartbeat sent, in milliseconds. *)
Record Heartbeat := mkHeartbeat {
  timeout : positive;
  datetime : Z;
}.

(** ** The host *)

(** What a pending timer runs when it fires: the callback of
    [checkHeartbeat] (lines 93-111, closed over [millisecond]) or the one of
    [addMembers] (lines 302-304). *)
Inductive Timer :=
| TkHeartbeat (millisecond : Z)
| TkMembersChange.

(** A transport made by [connect].  It remembers the arguments of that call,
    which its listeners close over, and how many [message] listeners have
    been added to it. *)
Record Transport := mkTransport {
  t_url : string;
  t_docID : string;
  t_defaultValue : option string;
  t_collectionName : string;
  message_listeners : nat;
}.

(** The payload of an emitted event. *)
Inductive Payload :=
| PObj (o : list (string * value))
| PError (e : ERROR)
| PMembers (l : list Member)
| PMember (m : option Member).

(** Calls into the editor engine. *)
Inductive EngineCall :=
| OtSetMembers (l : list Member)
| OtAddMember (m : Member)
| OtRemoveMember (m : Member)
| OtSetCurrentMember (m : Member)
| OtInit (d : Doc) (defaultValue : option string)
| EngineFocus.

(** Everything the client does to the outside, in the order it does it. *)
Inductive Effect :=
| Emit (event : string) (payload : Payload)
| SocketNew (sid : nat) (url : string)
| SocketSend (sid : nat) (action : string) (data : list (string * value))
| SocketClose (sid : nat) (status_code : option Z) (reason : option string)
| SetTimeout (tid : positive) (delay : Z)
| ClearTimeout (tid : positive)
| Engine (c : EngineCall)
| DocSubscribe (d : Doc)
| ConsoleLog (text : string)
| Uncaught (event : string) (payload : Payload).

(** ** The client *)

Record OTClient := mkClient {
  socket : option nat;
  members : list Member;
  current : option Member;
  status : option string;
  doc : option Doc;
  isClosed : bool;
  heartbeat : option Heartbeat;
  sockets : gmap nat Transport;
  next_socket : nat;
  timers : gmap positive Timer;
  next_timer : positive;
  trace : list Effect;
  listened : list string;
}.

(** The object after the constructor (lines 66-84). *)
Definition new_client : OTClient :=
  {| socket := None; members := []; current := None; status := None;
     doc := None; isClosed := true; heartbeat := None;
     sockets := ∅; next_socket := 0%nat;
     timers := ∅; next_timer := 1%positive; trace := [];
     listened := [] |}.

Definition set_socket (v : option nat) (s : OTClient) : OTClient :=
  mkClient v (members s) (current s) (status s) (doc s) (isClosed s)
    (heartbeat s) (sockets s) (next_socket s) (timers s) (next_timer s)
    (trace s)
    (listened s).

Definition set_members (v : list Member) (s : OTClient) : OTClient :=
  mkClient (socket s) v (current s) (status s) (doc s) (isClosed s)
    (heartbeat s) (sockets s) (next_socket s) (timers s) (next_timer s)
    (trace s)
    (listened s).

Definition set_current (v : option Member) (s : OTClient) : OTClient :=
  mkClient (socket s) (members s) v (status s) (doc s) (isClosed s)
    (heartbeat s) (sockets s) (next_socket s) (timers s) (next_timer s)
    (trace s)
    (listened s).

Definition set_status (v : option string) (s : OTClient) : OTClient :=
  mkClient (socket s) (members s) (current s) v (doc s) (isClosed s)
    (heartbeat s) (sockets s) (next_socket s) (timers s) (next_timer s)
    (trace s)
    (listened s).

Definition set_doc (v : option Doc) (s : OTClient) : OTClient :=
  mkClient (socket s) (members s) (current s) (status s) v (isClosed s)
    (heartbeat s) (sockets s) (next_socket s) (timers s) (next_timer s)
    (trace s)
    (listened s).

Definition set_isClosed (v : bool) (s : OTClient) : OTClient :=
  mkClient (socket s) (members s) (current s) (status s) (doc s) v
    (heartbeat s) (sockets s) (next_socket s) (timers s) (next_timer s)
    (trace s)
    (listened s).

Definition set_heartbeat (v : option Heartbeat) (s : OTClient) : OTClient :=
  mkClient (socket s) (members s) (current s) (status s) (doc s) (isClosed s)
    v (sockets s) (next_socket s) (timers s) (next_timer s) (trace s)
    (listened s).

Definition set_sockets (v : gmap nat Transport) (n : nat) (s : OTClient)
  : OTClient :=
  mkClient (socket s) (members s) (current s) (status s) (doc s) (isClosed s)
    (heartbeat s) v n (timers s) (next_timer s) (trace s)
    (listened s).

Definition set_timers (v : gmap positive Timer) (n : positive) (s : OTClient)
  : OTClient :=
  mkClient (socket s) (members s) (current s) (status s) (doc s) (isClosed s)
    (heartbeat s) (sockets s) (next_socket s) v n (trace s)
    (listened s).

Definition set_listened (v : list string) (s : OTClient) : OTClient :=
  mkClient (socket s) (members s) (current s) (status s) (doc s) (isClosed s)
    (heartbeat s) (sockets s) (next_socket s) (timers s) (next_timer s)
    (trace s) v.

(** Append one effect to the trace. *)
Definition log (e : Effect) (s : OTClient) : OTClient :=
  mkClient (socket s) (members s) (current s) (status s) (doc s) (isClosed s)
    (heartbeat s) (sockets s) (next_socket s) (timers s) (next_timer s)
    (trace s ++ [e])
    (listened s).

(** [this.on(event, listener)] and [this.removeListener(event, listener)],
    which the class has from [EventEmitter]: [listened] names an event once
    for each listener the application has on it.  The listeners are the
    application's; they are taken to return and not to call the client. *)
Definition on (event : string) (s : OTClient) : OTClient :=
  set_listened (listened s ++ [event]) s.

Fixpoint remove_one (event : string) (l : list string) : list string :=
  match l with
  | [] => []
  | x :: l' => if String.eqb x event then l' else x :: remove_one event l'
  end.

Definition removeListener (event : string) (s : OTClient) : OTClient :=
  set_listened (remove_one event (listened s)) s.

(** Whether [this.emit(event, ...)] throws: the emitter throws an [error]
    event that nobody listens to. *)
Definition emit_throws (event : string) (s : OTClient) : bool :=
  String.eqb event "error" && negb (bool_decide ("error" ∈ listened s)).

(** [this.emit(event, payload)]: the call is recorded when it returns, and
    what it throws is recorded as leaving the handler uncaught. *)
Definition emit (event : string) (p : Payload) (s : OTClient) : OTClient :=
  if emit_throws event s then log (Uncaught event p) s
  else log (Emit event p) s.

(** [setTimeout(cb, delay)]: a fresh handle, the callback pending under it. *)
Definition setTimeout (cb : Timer) (delay : Z) (s : OTClient)
  : positive * OTClient :=
  let tid := next_timer s in
  (tid, log (SetTimeout tid delay)
          (set_timers (<[tid := cb]> (timers s)) (Pos.succ tid) s)).

(** [clearTimeout(handle)]: the callback no longer pending (nothing happens
    for a handle that already fired). *)
Definition clearTimeout (tid : positive) (s : OTClient) : OTClient :=
  log (ClearTimeout tid) (set_timers (delete tid (timers s)) (next_timer s) s).

(** ** Presence tracker *)

(** One turn of the [forEach] of [addMembers] (lines 297-301): [find] gives
    back an entry, which is an object and so truthy, or [undefined]. *)
Definition push_member (ms : list Member) (member : Member) : list Member :=
  match find (fun m => Z.eqb (id member) (id m)) ms with
  | Some _ => ms
  | None => ms ++ [member]
  end.

(** [addMembers] (lines 296-305). *)
Definition addMembers (memberList : list Member) (s : OTClient) : OTClient :=
  let s1 := set_members (foldl push_member (members s) memberList) s in
  (setTimeout TkMembersChange 1000 s1).2.

(** The property names of [Object.prototype], which a plain object [{}]
    inherits (ECMAScript, with the accessors of its annex B that browsers
    and Node have). *)
Definition Object_prototype : list string :=
  ["constructor"; "hasOwnProperty"; "isPrototypeOf"; "propertyIsEnumerable";
   "toLocaleString"; "toString"; "valueOf"; "__proto__";
   "__defineGetter__"; "__defineSetter__"; "__lookupGetter__";
   "__lookupSetter__"].

(** [colorMap[key] = v] on the own properties of [colorMap], for [v] a
    string or [undefined] as the engine gives: under [__proto__] the
    assignment goes to the setter of [Object.prototype], which ignores
    such a value; under any other key it makes or overwrites an own
    property. *)
Definition colorMap_set (key : string) (v : Color)
  (colorMap : gmap string Color) : gmap string Color :=
  if String.eqb key "__proto__" then colorMap else <[key := v]> colorMap.

(** [colorMap[key]]: the own property if there is one, else what
    [Object.prototype] has under that name, else [undefined]. *)
Definition colorMap_get (colorMap : gmap string Color) (key : string)
  : Color :=
  match colorMap !! key with
  | Some v => v
  | None =>
      if bool_decide (key ∈ Object_prototype) then CInherited key
      else CUndefined
  end.

(** The own properties of [colorMap] in [normalizeMembers] (lines 316-320),
    from the members the engine reports. *)
Definition colorMap_of (users : list Member) : gmap string Color :=
  foldl (fun colorMap user => colorMap_set (uuid user) (color user) colorMap)
    ∅ users.

(** [{ ...member }] with [color] overwritten by [colorMap[member.uuid]]
    (lines 325-326). *)
Definition cloneMember (colorMap : gmap string Color)
  (member : Member) : Member :=
  {| id := id member; avatar := avatar member; name := name member;
     iid := iid member; uuid := uuid member;
     color := colorMap_get colorMap (uuid member) |}.

(** One turn of the loop of [normalizeMembers] (lines 323-329) on the pair
    ([memberMap], [members]). *)
Definition normalize_step (colorMap : gmap string Color)
  (acc : gmap Z Member * list Member) (member : Member)
  : gmap Z Member * list Member :=
  match acc.1 !! id member with
  | None => (<[id member := member]> acc.1, acc.2 ++ [cloneMember colorMap member])
  | Some _ => acc
  end.

(** [normalizeMembers] (lines 314-332); [users] is what
    [this.engine.ot.getMembers()] returns.  The loop runs from the last
    index down to the first. *)
Definition normalizeMembers (users : list Member) (s : OTClient)
  : list Member :=
  (foldl (normalize_step (colorMap_of users)) (∅, []) (reverse (members s))).2.

(** [removeMember] (lines 307-312). *)
Definition removeMember (users : list Member) (member : Member)
  (s : OTClient) : OTClient :=
  let s1 :=
    set_members
      (filter (fun user => uuid user ≠ uuid member) (members s)) s in
  emit EVENT.membersChange (PMembers (normalizeMembers users s1)) s1.

(** ** Session state machine *)

(** [transmit] (lines 334-341). *)
Definition transmit (st : string) (s : OTClient) : OTClient :=
  let prevStatus := status s in
  let s1 := set_status (Some st) s in
  emit EVENT.statusChange
    (PObj [("form", opt_str prevStatus); ("to", VStr st)]) s1.

(** [onError] (lines 343-346): when [emit] throws, the assignment after it
    is not reached. *)
Definition onError (e : ERROR) (s : OTClient) : OTClient :=
  let s1 := emit EVENT.error (PError e) s in
  if emit_throws EVENT.error s then s1
  else set_status (Some STATUS.error) s1.

(** [isActive] (lines 348-350). *)
Definition isActive (s : OTClient) : bool :=
  bool_decide (status s = Some STATUS.active).

(** [disconnect] (lines 359-373).  [close] is called with a code in the
    application range and a short reason, for which it does not throw. *)
Definition disconnect (s : OTClient) : OTClient :=
  match socket s with
  | Some sid =>
      let s1 :=
        log (SocketClose sid (Some ERROR_CODE.STATUS_CODE.FORCE_DISCONNECTED)
               (Some "FORCE_DISCONNECTED")) s in
      match heartbeat s1 with
      | Some hb => clearTimeout (timeout hb) s1
      | None => s1
      end
  | None => s
  end.

(** [exit] (lines 352-357). *)
Definition exit (s : OTClient) : OTClient :=
  if bool_decide (status s ≠ Some STATUS.exit)
  then disconnect (transmit STATUS.exit s)
  else s.

(** ** Sending *)

(** [sendMessage] (lines 283-294): the object handed to [JSON.stringify]. *)
Definition sendMessage (action : string) (data : list (string * value))
  (s : OTClient) : OTClient :=
  match socket s with
  | Some sid =>
      log (SocketSend sid action
             (obj_set "uuid" (opt_str (uuid <$> current s))
                (obj_set "doc_id" (opt_str (doc_id <$> doc s)) data))) s
  | None => s
  end.

(** [broadcast] (lines 274-276); a [body] left out is [{}]. *)
Definition broadcast (type : value) (body : value) (s : OTClient) : OTClient :=
  let body :=
    match body with
    | VUndefined => VObj []
    | _ => body
    end in
  sendMessage "broadcast" [("type", type); ("body", body)] s.

(** ** Heartbeat monitor *)

(** [checkHeartbeat] up to the timer it sets (lines 90-93 and 111). *)
Definition checkHeartbeat (millisecond : Z) (s : OTClient) : OTClient :=
  match socket s with
  | None => s
  | Some _ =>
      let s1 :=
        match heartbeat s with
        | Some hb => clearTimeout (timeout hb) s
        | None => s
        end in
      (setTimeout (TkHeartbeat millisecond) 1000 s1).2
  end.

(** The callback of that timer (lines 93-111), run at time [now] by the
    timer whose handle is [tid]. *)
Definition heartbeat_tick (tid : positive) (millisecond : Z) (now : Z)
  (s : OTClient) : OTClient :=
  let due :=
    match heartbeat s with
    | None => true
    | Some hb => Z.leb millisecond (now - datetime hb)
    end in
  let s1 :=
    if negb (isClosed s) && due then
      set_heartbeat (Some {| timeout := tid; datetime := now |})
        (sendMessage "heartbeat" [("time", VNum now)] s)
    else
      match heartbeat s with
      | Some hb =>
          set_heartbeat (Some {| timeout := tid; datetime := datetime hb |}) s
      | None => s
      end in
  checkHeartbeat millisecond s1.

(** A pending timer fires: it stops being pending and its callback runs.
    [users] is what the engine reports to [normalizeMembers]. *)
Definition fire_timer (users : list Member) (now : Z) (tid : positive)
  (s : OTClient) : OTClient :=
  match timers s !! tid with
  | None => s
  | Some cb =>
      let s1 := set_timers (delete tid (timers s)) (next_timer s) s in
      match cb with
      | TkHeartbeat millisecond => heartbeat_tick tid millisecond now s1
      | TkMembersChange =>
          emit EVENT.membersChange (PMembers (normalizeMembers users s1)) s1
      end
  end.

(** ** Sync bootstrapper *)

(** [load] (lines 223-267): the document is fetched and subscribed to; the
    other listeners it installs only write to the console. *)
Definition load (docId : string) (collectionName : string)
  (defaultValue : option string) (s : OTClient) : OTClient :=
  let d := {| doc_collection := collectionName; doc_id := docId |} in
  log (DocSubscribe d) (set_doc (Some d) s).

(** The callback given to [doc.subscribe] (lines 230-246).  [err] tells
    whether the subscription failed, [init_ok] whether the engine's [init]
    returned rather than threw, [me] and [users] are what the engine reports
    as current member and as members. *)
Definition subscribe_callback (d : Doc) (defaultValue : option string)
  (err : bool) (init_ok : bool) (me : option Member) (users : list Member)
  (s : OTClient) : OTClient :=
  if err then log (ConsoleLog "collab doc subscribe error") s
  else
    let s1 := log (Engine (OtInit d defaultValue)) s in
    if init_ok then
      let s2 := log (Engine EngineFocus) s1 in
      let s3 := emit "ready" (PMember me) s2 in
      let s4 :=
        emit EVENT.membersChange (PMembers (normalizeMembers users s3)) s3 in
      transmit STATUS.active s4
    else log (ConsoleLog "am-engine init failed:") s1.

(** ** Control-message router *)

(** A parsed envelope [{ action, data }], by action.  The [uuid] of a
    broadcast is whatever the sender put there. *)
Inductive ControlMessage :=
| MsgMembers (data : list Member)
| MsgJoin (data : Member)
| MsgLeave (data : Member)
| MsgReady (data : Member)
| MsgBroadcast (sender : value) (body : value) (type : value)
| MsgOther (action : string) (data : value).

(** [v === u] for [u] a string or [undefined]. *)
Definition strict_eq (v : value) (u : option string) : bool :=
  match v, u with
  | VStr a, Some b => String.eqb a b
  | VUndefined, None => true
  | _, _ => false
  end.

(** The [message] listener (lines 152-191), closed over the arguments of
    the [connect] call that made the transport [t]. *)
Definition on_message (users : list Member) (t : Transport)
  (msg : ControlMessage) (s : OTClient) : OTClient :=
  match msg with
  | MsgMembers data => log (Engine (OtSetMembers data)) (addMembers data s)
  | MsgJoin data => log (Engine (OtAddMember data)) (addMembers [data] s)
  | MsgLeave data =>
      removeMember users data (log (Engine (OtRemoveMember data)) s)
  | MsgReady data =>
      load (t_docID t) (t_collectionName t) (t_defaultValue t)
        (log (Engine (OtSetCurrentMember data)) (set_current (Some data) s))
  | MsgBroadcast sender body type =>
      if negb (strict_eq sender (uuid <$> current s))
      then emit EVENT.message (PObj [("type", type); ("body", body)]) s
      else s
  | MsgOther _ _ => s
  end.

(** ** Transport glue *)

(** [connect] (lines 121-215): the previous transport, if one was ever
    opened, is closed, and a new one is made with its [open], [close] and
    [error] listeners. *)
Definition connect (url : string) (docID : string)
  (defautlValue : option string) (collectionName : option string)
  (s : OTClient) : OTClient :=
  let s1 :=
    match socket s with
    | Some old => log (SocketClose old None None) s
    | None => s
    end in
  let sid := next_socket s1 in
  let t :=
    {| t_url := url; t_docID := docID; t_defaultValue := defautlValue;
       t_collectionName := default "yanmao" collectionName;
       message_listeners := 0 |} in
  log (SocketNew sid url) (set_sockets (<[sid := t]> (sockets s1)) (S sid) s1).

(** The [open] listener of transport [sid] (lines 147-194).  The transport
    is a reconnecting one: it opens again after a drop and keeps the
    listeners it was given, so each run adds one more [message] listener to
    it. *)
Definition on_open (sid : nat) (s : OTClient) : OTClient :=
  match sockets s !! sid with
  | None => s
  | Some t =>
      let s1 := set_isClosed false (set_socket (Some sid) s) in
      let t' :=
        {| t_url := t_url t; t_docID := t_docID t;
           t_defaultValue := t_defaultValue t;
           t_collectionName := t_collectionName t;
           message_listeners := S (message_listeners t) |} in
      let s2 := set_sockets (<[sid := t']> (sockets s1)) (next_socket s1) s1 in
      checkHeartbeat 30000 s2
  end.

(** The [close] listener (lines 196-205). *)
Definition on_close (s : OTClient) : OTClient :=
  if bool_decide (status s ≠ Some STATUS.exit)
  then
    onError {| code := ERROR_CODE.DISCONNECTED; level := ERROR_LEVEL.FATAL;
               message := "网络连接异常，无法继续编辑"; error := None |} s
  else s.

(** The [error] listener (lines 207-214). *)
Definition on_error (err : value) (s : OTClient) : OTClient :=
  onError {| code := ERROR_CODE.CONNECTION_ERROR; level := ERROR_LEVEL.FATAL;
             message := "协作服务异常，无法继续编辑"; error := Some err |} s.

(** The transport [sid] hands one inbound message to each of its [message]
    listeners in turn. *)
Definition deliver (users : list Member) (sid : nat) (msg : ControlMessage)
  (s : OTClient) : OTClient :=
  match sockets s !! sid with
  | None => s
  | Some t => Nat.iter (message_listeners t) (on_message users t msg) s
  end.

(** ** The event loop *)

(** What can happen to a client: a call from the application, an event of a
    transport, a timer firing, the answer to a subscription.  Readings of
    the engine and of the clock come with the event that needs them. *)
Inductive Input :=
| CallConnect (url docID : string) (defautlValue collectionName : option string)
| CallBroadcast (type body : value)
| CallAddMembers (memberList : list Member)
| CallRemoveMember (users : list Member) (member : Member)
| CallExit
| SocketOpen (sid : nat)
| SocketMessage (users : list Member) (sid : nat) (msg : ControlMessage)
| SocketClosed (sid : nat)
| SocketError (sid : nat) (err : value)
| TimerFires (users : list Member) (now : Z) (tid : positive)
| Subscribed (d : Doc) (defaultValue : option string) (err init_ok : bool)
    (me : option Member) (users : list Member)
| CallOn (event : string)
| CallRemoveListener (event : string).

Definition handle (s : OTClient) (i : Input) : OTClient :=
  match i with
  | CallConnect url docID dv cn => connect url docID dv cn s
  | CallBroadcast type body => broadcast type body s
  | CallAddMembers l => addMembers l s
  | CallRemoveMember users m => removeMember users m s
  | CallExit => exit s
  | SocketOpen sid => on_open sid s
  | SocketMessage users sid msg => deliver users sid msg s
  | SocketClosed sid =>
      match sockets s !! sid with Some _ => on_close s | None => s end
  | SocketError sid err =>
      match sockets s !! sid with Some _ => on_error err s | None => s end
  | Subscribed d dv err ok me users => subscribe_callback d dv err ok me users s
  | TimerFires users now tid => fire_timer users now tid s
  | CallOn event => on event s
  | CallRemoveListener event => removeListener event s
  end.

(** The client after a run of inputs. *)
Definition run (s : OTClient) (inputs : list Input) : OTClient :=
  foldl handle s inputs.

(** ** Reading a trace *)

(** The payloads emitted under one event name, in order. *)
Definition emitted (event : string) (tr : list Effect) : list Payload :=
  omap (fun e =>
          match e with
          | Emit ev p => if String.eqb ev event then Some p else None
          | _ => None
          end) tr.

Definition is_close (e : Effect) : bool :=
  match e with SocketClose _ _ _ => true | _ => false end.

Definition is_clear (e : Effect) : bool :=
  match e with ClearTimeout _ => true | _ => false end.

(** The stored fields of a roster entry; [color] is the one that
    [normalizeMembers] takes from the engine instead. *)
Definition fields (m : Member) : Z * string * string * Z * string :=
  (id m, avatar m, name m, iid m, uuid m).

(** The two fields that say whether there is a transport and whether it
    is open. *)
Definition link (s : OTClient) : option nat * bool := (socket s, isClosed s).

(** The messages handed to a transport's [send], in order. *)
Definition sent (tr : list Effect)
  : list (nat * string * list (string * value)) :=
  omap (fun e =>
          match e with
          | SocketSend sid action data => Some (sid, action, data)
          | _ => None
          end) tr.

(** Handles are given out in increasing order: every pending timer has a
    handle already given out, and the handle kept in [this.heartbeat] is
    one of a timer that is no longer pending. *)
Definition timers_ok (s : OTClient) : Prop :=
  (∀ tid cb, timers s !! tid = Some cb → (tid < next_timer s)%positive)
  ∧ (∀ hb, heartbeat s = Some hb →
           (timeout hb < next_timer s)%positive
           ∧ timers s !! timeout hb = None).

(** The part of a client that the timer calls read and write. *)
Definition tstate (s : OTClient)
  : gmap positive Timer * positive * option Heartbeat :=
  (timers s, next_timer s, heartbeat s).

(** The part of a client that says which transports there are and which
    one is in use. *)
Definition sstate (s : OTClient) : gmap nat Transport * nat * option nat :=
  (sockets s, next_socket s, socket s).

(** Transports are numbered in the order [connect] makes them, and the
    one in use is one of them. *)
Definition sockets_ok (s : OTClient) : Prop :=
  (∀ sid t, sockets s !! sid = Some t → (sid < next_socket s)%nat)
  ∧ (∀ sid, socket s = Some sid → is_Some (sockets s !! sid)).

(** ** Window events *)

(** The events of the window that [bindEvents] listens to. *)
Inductive WindowEvent := BeforeUnload | VisibilityChange | PageHide.

#[global] Instance WindowEvent_eq_dec : EqDecision WindowEvent.
Proof. solve_decision. Defined.

(** The client in its page.  A listener of the window is known by the
    event it is for and by the function that was registered; every arrow
    function the code writes is a new function, numbered here in the order
    of creation.  [inactive_emitted] counts the [inactive] events given to
    the application. *)
Record Page := mkPage {
  client : OTClient;
  window_listeners : list (WindowEvent * nat);
  next_closure : nat;
  inactive_emitted : nat;
}.

Definition new_page : Page :=
  {| client := new_client; window_listeners := []; next_closure := 0;
     inactive_emitted := 0 |}.

(** [window.addEventListener(ev, () => ...)] with a function written on
    the spot. *)
Definition addEventListener (ev : WindowEvent) (p : Page) : Page :=
  {| client := client p;
     window_listeners := window_listeners p ++ [(ev, next_closure p)];
     next_closure := S (next_closure p);
     inactive_emitted := inactive_emitted p |}.

(** [window.removeEventListener(ev, () => ...)], again with a function
    written on the spot: the listener to go is the one that is this very
    function. *)
Definition removeEventListener (ev : WindowEvent) (p : Page) : Page :=
  {| client := client p;
     window_listeners :=
       filter (fun l => l ≠ (ev, next_closure p)) (window_listeners p);
     next_closure := S (next_closure p);
     inactive_emitted := inactive_emitted p |}.

(** [bindEvents] (lines 375-383). *)
Definition bindEvents (p : Page) : Page :=
  addEventListener PageHide
    (addEventListener VisibilityChange (addEventListener BeforeUnload p)).

(** [unbindEvents] (lines 385-393). *)
Definition unbindEvents (p : Page) : Page :=
  removeEventListener PageHide
    (removeEventListener VisibilityChange (removeEventListener BeforeUnload p)).

(** The body the listeners of [ev] have (lines 376-382); [hidden] tells
    whether [document.visibilityState] is ['hidden']. *)
Definition window_listener (ev : WindowEvent) (hidden : bool) (p : Page)
  : Page :=
  match ev with
  | BeforeUnload | PageHide =>
      {| client := exit (client p); window_listeners := window_listeners p;
         next_closure := next_closure p;
         inactive_emitted := inactive_emitted p |}
  | VisibilityChange =>
      if hidden then
        {| client := client p; window_listeners := window_listeners p;
           next_closure := next_closure p;
           inactive_emitted := S (inactive_emitted p) |}
      else p
  end.

(** The window gives an event to the listeners registered for it, in the
    order they were registered. *)
Definition dispatch (ev : WindowEvent) (hidden : bool) (p : Page) : Page :=
  foldl (fun q l => if decide (l.1 = ev) then window_listener ev hidden q else q)
    p (window_listeners p).

(** What can happen to a page. *)
Inductive PageOp :=
| Bind
| Unbind
| Window (ev : WindowEvent) (hidden : bool)
| Client (i : Input).

Definition page_step (p : Page) (op : PageOp) : Page :=
  match op with
  | Bind => bindEvents p
  | Unbind => unbindEvents p
  | Window ev hidden => dispatch ev hidden p
  | Client i =>
      {| client := handle (client p) i; window_listeners := window_listeners p;
         next_closure := next_closure p;
         inactive_emitted := inactive_emitted p |}
  end.

Definition run_page (p : Page) (ops : list PageOp) : Page :=
  foldl page_step p ops.

(** Every registered listener is a function made before now. *)
Definition closures_ok (p : Page) : Prop :=
  Forall (fun l => (l.2 < next_closure p)%nat) (window_listeners p).

(** ** Sample data *)

(** Two entries for the same account, from two sessions, and one for
    another account. *)
Definition ann : Member := mkMember 1 "a.png" "Ann" 10 "u1" CUndefined.
Definition bob : Member := mkMember 1 "b.png" "Bob" 11 "u2" CUndefined.
Definition eve : Member := mkMember 2 "e.png" "Eve" 12 "u3" CUndefined.

(** [connect], then the transport opens. *)
Definition open_scenario : list Input :=
  [CallConnect "wss://collab.test/?v=1" "doc-1" None None; SocketOpen 0].

(** A client whose first transport has opened. *)
Definition opened_client : OTClient := run new_client open_scenario.

(** A session in which the network drops once: the transport opens, the
    server announces the client as [ann], the transport closes and, being a
    reconnecting one, opens again; then another participant broadcasts. *)
Definition reopen_scenario : list Input :=
  [CallConnect "wss://collab.test/?v=1" "doc-1" None None;
   SocketOpen 0;
   SocketMessage [] 0 (MsgReady ann);
   SocketClosed 0;
   SocketOpen 0;
   SocketMessage [] 0 (MsgBroadcast (VStr "u3") (VStr "hello") (VStr "chat"))].

(** * Properties *)

(** ** Bookkeeping: what the host primitives leave alone *)

Lemma members_log e s : members (log e s) = members s.
Proof. reflexivity. Qed.

Lemma members_setTimeout cb d s : members (setTimeout cb d s).2 = members s.
Proof. reflexivity. Qed.

Lemma members_clearTimeout tid s : members (clearTimeout tid s) = members s.
Proof. reflexivity. Qed.

Lemma trace_setTimeout cb d s :
  trace (setTimeout cb d s).2 = trace s ++ [SetTimeout (next_timer s) d].
Proof. reflexivity. Qed.

Lemma emitted_app ev tr1 tr2 :
  emitted ev (tr1 ++ tr2) = emitted ev tr1 ++ emitted ev tr2.
Proof. unfold emitted. apply omap_app. Qed.

(** ** Presence tracker *)

Section Roster.

Implicit Types (ms l : list Member) (m : Member).

(** [find] by [id] fails exactly when the [id] is not in the roster. *)
Lemma find_id_None ms m :
  find (fun m' => Z.eqb (id m) (id m')) ms = None ↔ id m ∉ id <$> ms.
Proof.
  induction ms as [|m' ms IH]; simpl.
  - split; [intros _; apply not_elem_of_nil | done].
  - rewrite not_elem_of_cons. destruct (Z.eqb_spec (id m) (id m')) as [E|E].
    + split; [done | intros [? _]; done].
    + rewrite IH. tauto.
Qed.

Lemma push_member_fresh ms m :
  id m ∉ id <$> ms → push_member ms m = ms ++ [m].
Proof.
  intros H. unfold push_member.
  by rewrite (proj2 (find_id_None ms m) H).
Qed.

Lemma push_member_present ms m :
  id m ∈ id <$> ms → push_member ms m = ms.
Proof.
  intros H. unfold push_member.
  destruct (find _ ms) eqn:E; [done|].
  apply find_id_None in E. done.
Qed.

Lemma push_member_NoDup ms m :
  NoDup (id <$> ms) → NoDup (id <$> push_member ms m).
Proof.
  intros Hnd. destruct (decide (id m ∈ id <$> ms)) as [Hin|Hin].
  - by rewrite push_member_present.
  - rewrite push_member_fresh by done.
    rewrite fmap_app. apply NoDup_app. split; [done|]. split.
    + intros x Hx Hx'. apply list_elem_of_singleton in Hx'. by subst.
    + apply NoDup_singleton.
Qed.

Lemma foldl_push_NoDup l ms :
  NoDup (id <$> ms) → NoDup (id <$> foldl push_member ms l).
Proof.
  revert ms. induction l as [|m l IH]; intros ms Hnd; simpl; [done|].
  apply IH. by apply push_member_NoDup.
Qed.

(** Entries whose [id] the roster already has change nothing. *)
Lemma foldl_push_present l ms :
  Forall (fun m => id m ∈ id <$> ms) l → foldl push_member ms l = ms.
Proof.
  induction 1 as [|m l Hm _ IH]; simpl; [done|].
  by rewrite push_member_present.
Qed.

Lemma members_addMembers l s :
  members (addMembers l s) = foldl push_member (members s) l.
Proof. reflexivity. Qed.

Lemma addMembers_NoDup l s :
  NoDup (id <$> members s) → NoDup (id <$> members (addMembers l s)).
Proof. rewrite members_addMembers. apply foldl_push_NoDup. Qed.

(** Every entry of the snapshot is the clone of a roster entry. *)
Lemma normalize_fold_elem cm l acc e :
  e ∈ (foldl (normalize_step cm) acc l).2 →
  e ∈ acc.2 ∨ ∃ m, m ∈ l ∧ e = cloneMember cm m.
Proof.
  revert acc. induction l as [|m l IH]; intros acc He; simpl in *.
  - by left.
  - apply IH in He as [He|(m' & Hm' & ->)].
    + unfold normalize_step in He.
      destruct (acc.1 !! id m); simpl in He; [by left|].
      apply elem_of_app in He as [He|He]; [by left|].
      apply list_elem_of_singleton in He. right. exists m.
      split; [apply list_elem_of_here | done].
    + right. exists m'. split; [by apply list_elem_of_further | done].
Qed.

Lemma normalizeMembers_elem users s e :
  e ∈ normalizeMembers users s →
  ∃ m, m ∈ members s ∧ e = cloneMember (colorMap_of users) m.
Proof.
  intros He. apply normalize_fold_elem in He as [He|(m & Hm & ->)].
  - by apply elem_of_nil in He.
  - exists m. split; [|done]. by apply elem_of_reverse.
Qed.

(** The snapshot has no two entries with the same [id]. *)
Lemma normalize_fold_NoDup cm l acc :
  NoDup (id <$> acc.2) →
  (∀ e, e ∈ acc.2 → is_Some (acc.1 !! id e)) →
  NoDup (id <$> (foldl (normalize_step cm) acc l).2).
Proof.
  revert acc. induction l as [|m l IH]; intros acc Hnd Hdom; simpl; [done|].
  apply IH; unfold normalize_step; destruct (acc.1 !! id m) eqn:E; simpl;
    try done.
  - rewrite fmap_app. apply NoDup_app. split; [done|]. split.
    + intros x Hx Hx'. apply list_elem_of_singleton in Hx'. subst x.
      apply list_elem_of_fmap in Hx as (e & He & Hin).
      apply Hdom in Hin as [v Hv]. simpl in He. rewrite <- He, E in Hv. done.
    + apply NoDup_singleton.
  - intros e [He|He]%elem_of_app.
    + destruct (decide (id m = id e)) as [->|Hne].
      * rewrite lookup_insert_eq. by eexists.
      * rewrite lookup_insert_ne by done. by apply Hdom.
    + apply list_elem_of_singleton in He. subst e. simpl.
      rewrite lookup_insert_eq. by eexists.
Qed.

Lemma normalizeMembers_NoDup users s :
  NoDup (id <$> normalizeMembers users s).
Proof.
  apply normalize_fold_NoDup; simpl.
  - apply NoDup_nil_2.
  - intros e He. by apply elem_of_nil in He.
Qed.

Lemma members_removeMember users m s :
  members (removeMember users m s)
  = filter (fun user => uuid user ≠ uuid m) (members s).
Proof. reflexivity. Qed.

Lemma removeMember_NoDup users m s :
  NoDup (id <$> members s) → NoDup (id <$> members (removeMember users m s)).
Proof.
  rewrite members_removeMember. intros Hnd.
  eapply sublist_NoDup; [exact Hnd|].
  apply fmap_sublist, sublist_filter.
Qed.

End Roster.

(** ** The roster under [addMembers] *)

Lemma addMembers_calls_NoDup (calls : list (list Member)) (s : OTClient) :
  NoDup (id <$> members s) →
  NoDup (id <$> members (foldl (fun s l => addMembers l s) s calls)).
Proof.
  revert s. induction calls as [|l calls IH]; intros s Hnd; simpl; [done|].
  apply IH. by apply addMembers_NoDup.
Qed.

(** C1. Whatever lists [addMembers] is called with, one call after the
    other on a new client, the roster never holds two entries with the same
    [id]. *)
Theorem addMembers_roster_unique (calls : list (list Member)) :
  NoDup (id <$> members (foldl (fun s l => addMembers l s) new_client calls)).
Proof. apply addMembers_calls_NoDup. simpl. apply NoDup_nil_2. Qed.

(** C3. When [A] and [A'] have the same [id] but are not the same entry, and
    the roster has no entry with that [id], [addMembers([A, A'])] appends
    [A] and nothing else: the roster keeps [A] and does not get [A']. *)
Theorem addMembers_first_wins (A A' : Member) (s : OTClient) :
  id A = id A' →
  A ≠ A' →
  id A ∉ id <$> members s →
  members (addMembers [A; A'] s) = members s ++ [A]
  ∧ A ∈ members (addMembers [A; A'] s)
  ∧ A' ∉ members (addMembers [A; A'] s).
Proof.
  intros Hid Hne Hfresh.
  assert (members (addMembers [A; A'] s) = members s ++ [A]) as ->.
  { rewrite members_addMembers. simpl.
    rewrite (push_member_fresh _ A) by done.
    apply push_member_present.
    rewrite fmap_app, <- Hid. apply elem_of_app. right. apply list_elem_of_here. }
  split; [done|]. split.
  - apply elem_of_app. right. apply list_elem_of_here.
  - intros [Hin|Hin]%elem_of_app.
    + apply Hfresh. rewrite Hid. by apply list_elem_of_fmap_2.
    + apply list_elem_of_singleton in Hin. by subst.
Qed.

Lemma addMembers_first_wins_witness :
  members (addMembers [ann; bob] new_client) = [ann].
Proof.
  refine (proj1 (addMembers_first_wins ann bob new_client _ _ _)).
  - reflexivity.
  - discriminate.
  - simpl. apply not_elem_of_nil.
Defined.

(** ** The snapshot of [normalizeMembers] *)

(** C4. For a roster [[X; Y]] whose two entries have the same [id] and
    differ in some stored field, the snapshot is the clone of [Y] alone: it
    has an entry with the fields of [Y] and none with the fields of [X]. *)
Theorem normalizeMembers_last_wins (users : list Member) (X Y : Member)
  (s : OTClient) :
  members s = [X; Y] →
  id X = id Y →
  fields X ≠ fields Y →
  normalizeMembers users s = [cloneMember (colorMap_of users) Y]
  ∧ NoDup (id <$> normalizeMembers users s)
  ∧ (∃ e, e ∈ normalizeMembers users s ∧ fields e = fields Y)
  ∧ (∀ e, e ∈ normalizeMembers users s → fields e ≠ fields X).
Proof.
  intros Hms Hid Hne.
  assert (normalizeMembers users s = [cloneMember (colorMap_of users) Y]) as E.
  { unfold normalizeMembers. rewrite Hms. simpl.
    unfold normalize_step at 2. simpl. rewrite lookup_empty. simpl.
    unfold normalize_step. simpl. by rewrite Hid, lookup_insert_eq. }
  split; [exact E|]. split; [apply normalizeMembers_NoDup|].
  rewrite E. split.
  - exists (cloneMember (colorMap_of users) Y).
    split; [apply list_elem_of_here | done].
  - intros e He%list_elem_of_singleton. subst e. intros E'. by apply Hne.
Qed.

Lemma normalizeMembers_last_wins_witness :
  normalizeMembers [mkMember 1 "b.png" "Bob" 11 "u2" (CStr "red")]
    (set_members [ann; bob] new_client)
  = [mkMember 1 "b.png" "Bob" 11 "u2" (CStr "red")].
Proof.
  refine (eq_trans
            (proj1 (normalizeMembers_last_wins
                      [mkMember 1 "b.png" "Bob" 11 "u2" (CStr "red")]
                      ann bob (set_members [ann; bob] new_client) _ _ _)) _).
  - reflexivity.
  - reflexivity.
  - discriminate.
  - vm_compute. reflexivity.
Defined.

(** C5. After [removeMember(p)], no entry of the snapshot of
    [normalizeMembers] has the [uuid] of [p], whatever the roster was and
    whatever the engine reports. *)
Theorem removeMember_then_normalize (users users' : list Member)
  (p : Member) (s : OTClient) :
  Forall (fun e => uuid e ≠ uuid p)
    (normalizeMembers users' (removeMember users p s)).
Proof.
  apply Forall_forall. intros e (m & Hm & ->)%normalizeMembers_elem.
  rewrite members_removeMember in Hm.
  apply list_elem_of_filter in Hm as [Hm _]. exact Hm.
Qed.

(** ** The delayed roster event *)

(** C10. [addMembers] sets a timer of 1000 ms for every list it is given;
    when that timer fires, [membersChange] is emitted with the snapshot.
    This is so also when the call leaves the roster as it was, as for the
    empty list and for a list whose every [id] the roster already has. *)
Theorem addMembers_always_schedules (memberList : list Member)
  (s : OTClient) :
  let s' := addMembers memberList s in
  trace s' = trace s ++ [SetTimeout (next_timer s) 1000]
  ∧ timers s' !! next_timer s = Some TkMembersChange
  ∧ (∀ users now,
       trace (fire_timer users now (next_timer s) s')
       = trace s'
           ++ [Emit EVENT.membersChange (PMembers (normalizeMembers users s'))])
  ∧ members (addMembers [] s) = members s
  ∧ (Forall (fun m => id m ∈ id <$> members s) memberList →
     members s' = members s).
Proof.
  intros s'.
  assert (timers s' !! next_timer s = Some TkMembersChange) as Ht.
  { subst s'. unfold addMembers, setTimeout. simpl. apply lookup_insert_eq. }
  split; [reflexivity|]. split; [exact Ht|]. split; [|split].
  - intros users now. unfold fire_timer. rewrite Ht. reflexivity.
  - reflexivity.
  - intros Hall. subst s'. rewrite members_addMembers.
    by apply foldl_push_present.
Qed.

Lemma addMembers_always_schedules_witness :
  members (addMembers [bob] (addMembers [ann] new_client))
  = members (addMembers [ann] new_client)
  ∧ emitted EVENT.membersChange
      (trace
         (fire_timer [] 0 (next_timer (addMembers [ann] new_client))
            (addMembers [bob] (addMembers [ann] new_client))))
    = [PMembers [ann]].
Proof.
  pose proof (addMembers_always_schedules [bob] (addMembers [ann] new_client))
    as (_ & _ & Hf & _ & Hm).
  split.
  - apply Hm. apply Forall_cons. split; [|apply Forall_nil_2].
    simpl. apply list_elem_of_here.
  - rewrite (Hf [] 0). vm_compute. reflexivity.
Defined.

(** ** Session state machine *)

(** C2. [transmit(st)] always emits one [statusChange] event, also when
    [st] is the status the client already has, and sets the status.  The
    payload carries [to], equal to [st], and the previous status under the
    key [form]; reading [from] on it gives [undefined]. *)
Theorem transmit_payload (st : string) (s : OTClient) :
  ∃ o,
    trace (transmit st s) = trace s ++ [Emit EVENT.statusChange (PObj o)]
    ∧ status (transmit st s) = Some st
    ∧ obj_get "to" o = VStr st
    ∧ obj_get "form" o = opt_str (status s)
    ∧ obj_get "from" o = VUndefined.
Proof.
  exists [("form", opt_str (status s)); ("to", VStr st)].
  repeat split.
Qed.

(** On an active client, [transmit("exit")] announces the change with a
    payload whose [from] is [undefined], not ["active"]. *)
Example transmit_from_is_undefined :
  emitted EVENT.statusChange
    (trace (transmit STATUS.exit (set_status (Some STATUS.active) new_client)))
  = [PObj [("form", VStr "active"); ("to", VStr "exit")]]
  ∧ obj_get "from" [("form", VStr "active"); ("to", VStr "exit")] = VUndefined.
Proof. split; reflexivity. Qed.

Lemma status_disconnect s : status (disconnect s) = status s.
Proof. unfold disconnect. repeat case_match; reflexivity. Qed.

Lemma status_exit s : status (exit s) = Some STATUS.exit.
Proof.
  unfold exit. case_bool_decide as H.
  - by rewrite status_disconnect.
  - destruct (decide (status s = Some STATUS.exit)); [done|]. by destruct H.
Qed.

(** What one call of [exit] adds to the trace: nothing, or the status
    event followed by what [disconnect] does. *)
Lemma trace_exit s :
  ∃ delta,
    trace (exit s) = trace s ++ delta
    ∧ (length (emitted EVENT.statusChange delta) ≤ 1)%nat
    ∧ (length (List.filter is_close delta) ≤ 1)%nat
    ∧ (length (List.filter is_clear delta) ≤ 1)%nat.
Proof.
  unfold exit. case_bool_decide.
  - unfold disconnect, transmit, emit. simpl.
    destruct (socket s) as [sid|]; simpl.
    + destruct (heartbeat s) as [hb|]; simpl.
      * eexists [_; _; _]. split; [by rewrite <- !app_assoc|].
        simpl. lia.
      * eexists [_; _]. split; [by rewrite <- !app_assoc|]. simpl. lia.
    + eexists [_]. split; [done|]. simpl. lia.
  - exists []. split; [by rewrite app_nil_r|]. simpl. lia.
Qed.

(** C6. Two calls of [exit] in a row do what one does: the second changes
    nothing, so it emits no [statusChange] and makes no transition, and
    over both calls the status event, the closing of the transport and the
    clearing of the heartbeat timer each happen at most once. *)
Theorem exit_idempotent (s : OTClient) :
  exit (exit s) = exit s
  ∧ status (exit s) = Some STATUS.exit
  ∧ ∃ delta,
      trace (exit (exit s)) = trace s ++ delta
      ∧ (length (emitted EVENT.statusChange delta) ≤ 1)%nat
      ∧ (length (List.filter is_close delta) ≤ 1)%nat
      ∧ (length (List.filter is_clear delta) ≤ 1)%nat.
Proof.
  assert (exit (exit s) = exit s) as Hidem.
  { unfold exit at 1. rewrite status_exit. by rewrite bool_decide_false by auto. }
  split; [exact Hidem|]. split; [apply status_exit|].
  rewrite Hidem. apply trace_exit.
Qed.

(** ** Errors *)

(** With a listener on [error], raising an error hands it the error and
    then sets the status. *)
Lemma onError_heard e s :
  EVENT.error ∈ listened s →
  onError e s
  = set_status (Some STATUS.error) (log (Emit EVENT.error (PError e)) s).
Proof.
  intros H. unfold onError, emit, emit_throws.
  by rewrite (bool_decide_true _ H).
Qed.

(** With none, [emit] throws and the status is not touched. *)
Lemma onError_unheard e s :
  EVENT.error ∉ listened s →
  onError e s = log (Uncaught EVENT.error (PError e)) s.
Proof.
  intros H. unfold onError, emit, emit_throws.
  by rewrite (bool_decide_false _ H).
Qed.

Lemma length_trace_onError e s :
  length (trace (onError e s)) = S (length (trace s)).
Proof.
  destruct (decide (EVENT.error ∈ listened s)) as [H|H].
  - rewrite onError_heard by done. simpl. rewrite length_app. simpl. lia.
  - rewrite onError_unheard by done. simpl. rewrite length_app. simpl. lia.
Qed.

(** C8 (amended). The [close] listener raises an error with code
    [DISCONNECTED] and level [FATAL] exactly when the status is not [exit],
    and otherwise leaves the client as it is; when the application listens
    to [error], raising an error, whichever it is, emits one [error] event
    with it and leaves the status [error]. *)
Theorem close_raises_unless_exit (s : OTClient) :
  ((∃ e, code e = ERROR_CODE.DISCONNECTED ∧ level e = ERROR_LEVEL.FATAL
         ∧ on_close s = onError e s)
   ↔ status s ≠ Some STATUS.exit)
  ∧ on_close s
    = (if bool_decide (status s = Some STATUS.exit) then s
       else onError
              {| code := ERROR_CODE.DISCONNECTED; level := ERROR_LEVEL.FATAL;
                 message := "网络连接异常，无法继续编辑"; error := None |} s)
  ∧ ∀ (e : ERROR) (s0 : OTClient),
      EVENT.error ∈ listened s0 →
      trace (onError e s0) = trace s0 ++ [Emit EVENT.error (PError e)]
      ∧ emitted EVENT.error (trace (onError e s0))
        = emitted EVENT.error (trace s0) ++ [PError e]
      ∧ status (onError e s0) = Some STATUS.error.
Proof.
  split; [|split].
  - unfold on_close. split.
    + intros (e & _ & _ & He) Hexit.
      rewrite bool_decide_false in He by auto.
      apply (f_equal (fun c => length (trace c))) in He.
      rewrite length_trace_onError in He. lia.
    + intros Hne. rewrite bool_decide_true by done.
      eexists. split; [|split; [|reflexivity]]; reflexivity.
  - unfold on_close. destruct (decide (status s = Some STATUS.exit)) as [E|E].
    + rewrite bool_decide_false by auto. by rewrite bool_decide_true.
    + rewrite bool_decide_true by done. by rewrite bool_decide_false.
  - intros e s0 H. rewrite onError_heard by done. simpl.
    split; [reflexivity|]. split; [|reflexivity].
    rewrite emitted_app. reflexivity.
Qed.

Lemma close_raises_unless_exit_witness :
  status
    (onError {| code := ERROR_CODE.DISCONNECTED; level := ERROR_LEVEL.FATAL;
                message := "closed"; error := None |}
       (on EVENT.error new_client))
  = Some STATUS.error.
Proof.
  refine (proj2 (proj2 (proj2 (proj2 (close_raises_unless_exit new_client))
                          _ (on EVENT.error new_client) _))).
  simpl. apply list_elem_of_here.
Defined.

(** On a client nobody listens to, the [close] of its transport raises the
    error, but no [error] event comes of it and the status is not set. *)
Lemma close_unheard_leaves_status :
  on_close opened_client
  = onError {| code := ERROR_CODE.DISCONNECTED; level := ERROR_LEVEL.FATAL;
               message := "网络连接异常，无法继续编辑"; error := None |}
      opened_client
  ∧ status (on_close opened_client) ≠ Some STATUS.error
  ∧ emitted EVENT.error (trace (on_close opened_client)) = [].
Proof. vm_compute. repeat split. discriminate. Qed.

(** ** Heartbeat monitor *)

(** Only the [open] listener touches [socket] and [isClosed], and it sets
    both: a client that is marked open has a transport. *)
Lemma link_checkHeartbeat ms s : link (checkHeartbeat ms s) = link s.
Proof. unfold checkHeartbeat. repeat case_match; reflexivity. Qed.

Lemma link_sendMessage a d s : link (sendMessage a d s) = link s.
Proof. unfold sendMessage. case_match; reflexivity. Qed.

Lemma link_heartbeat_tick tid ms now s :
  link (heartbeat_tick tid ms now s) = link s.
Proof.
  unfold heartbeat_tick. rewrite link_checkHeartbeat.
  repeat case_match; try reflexivity;
    exact (link_sendMessage "heartbeat" [("time", VNum now)] s).
Qed.

Lemma link_fire_timer users now tid s :
  link (fire_timer users now tid s) = link s.
Proof.
  unfold fire_timer. repeat case_match; try reflexivity.
  by rewrite link_heartbeat_tick.
Qed.

Lemma link_exit s : link (exit s) = link s.
Proof. unfold exit, disconnect. repeat case_match; reflexivity. Qed.

Lemma link_on_message users t msg s : link (on_message users t msg s) = link s.
Proof. destruct msg; simpl; try reflexivity. by case_match. Qed.

Lemma link_deliver users sid msg s : link (deliver users sid msg s) = link s.
Proof.
  unfold deliver. case_match; [|done].
  induction (message_listeners _) as [|n IH]; simpl; [done|].
  by rewrite link_on_message.
Qed.

Lemma handle_open_has_socket s i :
  (isClosed s = false → is_Some (socket s)) →
  isClosed (handle s i) = false → is_Some (socket (handle s i)).
Proof.
  intros Hinv.
  assert (link (handle s i) = link s →
          isClosed (handle s i) = false → is_Some (socket (handle s i))) as Hsame.
  { intros E. injection E as -> ->. exact Hinv. }
  destruct i; cbn [handle]; cbn [handle] in Hsame.
  6: { clear Hsame. unfold on_open, checkHeartbeat.
       destruct (sockets s !! sid) as [t|]; [|done]. simpl.
       intros _. destruct (heartbeat s); simpl; by eexists. }
  all: apply Hsame; clear Hsame.
  - unfold connect. by case_match.
  - apply link_sendMessage.
  - reflexivity.
  - reflexivity.
  - apply link_exit.
  - apply link_deliver.
  - unfold on_close, onError, emit. by repeat case_match.
  - unfold on_error, onError, emit. by repeat case_match.
  - apply link_fire_timer.
  - unfold subscribe_callback. by repeat case_match.
  - reflexivity.
  - reflexivity.
Qed.

Lemma run_open_has_socket (inputs : list Input) :
  isClosed (run new_client inputs) = false →
  is_Some (socket (run new_client inputs)).
Proof.
  unfold run.
  assert (isClosed new_client = false → is_Some (socket new_client)) as H
    by done.
  revert H. generalize new_client.
  induction inputs as [|i inputs IH]; intros s Hinv; simpl; [done|].
  apply IH. by apply handle_open_has_socket.
Qed.

(** The tick on a client that has a transport, is marked open and has no
    heartbeat record. *)
Lemma first_tick (users : list Member) (now : Z) (tid : positive)
  (millisecond : Z) (sid : nat) (s : OTClient) :
  timers s !! tid = Some (TkHeartbeat millisecond) →
  socket s = Some sid →
  isClosed s = false →
  heartbeat s = None →
  trace (fire_timer users now tid s)
  = trace s
      ++ [SocketSend sid "heartbeat"
            [("time", VNum now);
             ("doc_id", opt_str (doc_id <$> doc s));
             ("uuid", opt_str (uuid <$> current s))];
          ClearTimeout tid;
          SetTimeout (next_timer s) 1000]
  ∧ heartbeat (fire_timer users now tid s)
    = Some {| timeout := tid; datetime := now |}
  ∧ timers (fire_timer users now tid s) !! next_timer s
    = Some (TkHeartbeat millisecond).
Proof.
  intros Ht Hsock Hopen Hhb.
  unfold fire_timer. rewrite Ht.
  unfold heartbeat_tick. simpl. rewrite Hopen, Hhb. simpl.
  unfold sendMessage. simpl. rewrite Hsock.
  unfold checkHeartbeat. simpl. rewrite Hsock. simpl.
  split; [by rewrite <- !app_assoc|]. split; [reflexivity|].
  apply lookup_insert_eq.
Qed.

(** C9. In every state a client can reach, when a heartbeat timer fires
    while the transport is open ([isClosed] is false) and no heartbeat has
    been recorded, the tick sends a [heartbeat] message carrying the
    current time on the transport and records that time as the last one
    sent; it then arms the next tick. *)
Theorem first_tick_sends_heartbeat (inputs : list Input)
  (users : list Member) (now : Z) (tid : positive) (millisecond : Z) :
  timers (run new_client inputs) !! tid = Some (TkHeartbeat millisecond) →
  isClosed (run new_client inputs) = false →
  heartbeat (run new_client inputs) = None →
  ∃ sid,
    socket (run new_client inputs) = Some sid
    ∧ trace (fire_timer users now tid (run new_client inputs))
      = trace (run new_client inputs)
          ++ [SocketSend sid "heartbeat"
                [("time", VNum now);
                 ("doc_id", opt_str (doc_id <$> doc (run new_client inputs)));
                 ("uuid", opt_str (uuid <$> current (run new_client inputs)))];
              ClearTimeout tid;
              SetTimeout (next_timer (run new_client inputs)) 1000]
    ∧ heartbeat (fire_timer users now tid (run new_client inputs))
      = Some {| timeout := tid; datetime := now |}.
Proof.
  intros Ht Hopen Hhb.
  destruct (run_open_has_socket inputs Hopen) as [sid Hsock].
  exists sid. split; [exact Hsock|].
  destruct (first_tick users now tid millisecond sid _ Ht Hsock Hopen Hhb)
    as (Htr & Hrec & _).
  by split.
Qed.

Lemma first_tick_sends_heartbeat_witness :
  heartbeat (fire_timer [] 5000 1 (run new_client open_scenario))
  = Some {| timeout := 1; datetime := 5000 |}.
Proof.
  pose proof (first_tick_sends_heartbeat open_scenario [] 5000 1 30000) as H.
  destruct H as (sid & _ & _ & Hhb).
  - vm_compute. reflexivity.
  - reflexivity.
  - reflexivity.
  - exact Hhb.
Defined.

(** ** Broadcast relay *)

(** One run of the [message] listener on a broadcast: nothing for an echo
    of the client's own [uuid], one [message] event otherwise. *)
Lemma on_message_broadcast users t sender body type s :
  on_message users t (MsgBroadcast sender body type) s
  = if strict_eq sender (uuid <$> current s) then s
    else emit EVENT.message (PObj [("type", type); ("body", body)]) s.
Proof. simpl. by destruct (strict_eq _ _). Qed.

Lemma iter_broadcast users t sender body type s n :
  let s' := Nat.iter n (on_message users t (MsgBroadcast sender body type)) s in
  current s' = current s
  ∧ emitted EVENT.message (trace s')
    = emitted EVENT.message (trace s)
        ++ (if strict_eq sender (uuid <$> current s) then []
            else replicate n (PObj [("type", type); ("body", body)])).
Proof.
  induction n as [|n [IHc IHt]]; simpl.
  - split; [done|]. destruct (strict_eq _ _); by rewrite app_nil_r.
  - rewrite IHc. destruct (strict_eq sender (uuid <$> current s)) eqn:E; simpl.
    + by split.
    + split; [done|]. unfold emit. simpl. rewrite emitted_app, IHt.
      rewrite <- app_assoc. f_equal.
      change (emitted EVENT.message [Emit EVENT.message (PObj [("type", type); ("body", body)])])
        with (replicate 1 (PObj [("type", type); ("body", body)])).
      rewrite <- replicate_add. by rewrite Nat.add_1_r.
Qed.

(** A transport hands a broadcast to every [message] listener it has: the
    application sees as many [message] events as the transport was opened
    times, and none for an echo. *)
Lemma deliver_broadcast users sid t sender body type s :
  sockets s !! sid = Some t →
  emitted EVENT.message
    (trace (deliver users sid (MsgBroadcast sender body type) s))
  = emitted EVENT.message (trace s)
      ++ (if strict_eq sender (uuid <$> current s) then []
          else replicate (message_listeners t)
                 (PObj [("type", type); ("body", body)])).
Proof.
  intros Ht. unfold deliver. rewrite Ht. apply iter_broadcast.
Qed.

(** C7. A transport that dropped and opened again (the [open] listener ran
    twice) gives one broadcast of another participant to the application
    as two [message] events. *)
Theorem broadcast_after_reopen_emits_twice :
  emitted EVENT.message (trace (run new_client reopen_scenario))
  = [PObj [("type", VStr "chat"); ("body", VStr "hello")];
     PObj [("type", VStr "chat"); ("body", VStr "hello")]].
Proof. vm_compute. reflexivity. Qed.

(** With a transport opened once, the same inputs give one event. *)
Example broadcast_single_open_emits_once :
  emitted EVENT.message
    (trace
       (run opened_client
          [SocketMessage [] 0 (MsgReady ann);
           SocketMessage [] 0 (MsgBroadcast (VStr "u3") (VStr "hello") (VStr "chat"));
           SocketMessage [] 0 (MsgBroadcast (VStr "u1") (VStr "mine") (VStr "chat"))]))
  = [PObj [("type", VStr "chat"); ("body", VStr "hello")]].
Proof. vm_compute. reflexivity. Qed.

(** ** The roster over whole runs *)

(** Only the presence tracker writes the roster. *)
Lemma members_checkHeartbeat ms s : members (checkHeartbeat ms s) = members s.
Proof. unfold checkHeartbeat. repeat case_match; reflexivity. Qed.

Lemma members_sendMessage a d s : members (sendMessage a d s) = members s.
Proof. unfold sendMessage. case_match; reflexivity. Qed.

Lemma members_heartbeat_tick tid ms now s :
  members (heartbeat_tick tid ms now s) = members s.
Proof.
  unfold heartbeat_tick. rewrite members_checkHeartbeat.
  repeat case_match; simpl; auto using members_sendMessage.
Qed.

Lemma members_fire_timer users now tid s :
  members (fire_timer users now tid s) = members s.
Proof.
  unfold fire_timer. repeat case_match; try reflexivity.
  by rewrite members_heartbeat_tick.
Qed.

Lemma members_exit s : members (exit s) = members s.
Proof. unfold exit, disconnect. repeat case_match; reflexivity. Qed.

Lemma members_on_open sid s : members (on_open sid s) = members s.
Proof.
  unfold on_open. case_match; [|reflexivity].
  by rewrite members_checkHeartbeat.
Qed.

Lemma on_message_NoDup users t msg s :
  NoDup (id <$> members s) → NoDup (id <$> members (on_message users t msg s)).
Proof.
  intros Hnd. destruct msg; simpl; try done.
  - by apply foldl_push_NoDup.
  - by apply push_member_NoDup.
  - by apply (removeMember_NoDup users data (log (Engine (OtRemoveMember data)) s)).
  - by case_match.
Qed.

Lemma handle_NoDup s i :
  NoDup (id <$> members s) → NoDup (id <$> members (handle s i)).
Proof.
  intros Hnd. destruct i; cbn [handle].
  - unfold connect. by case_match.
  - unfold broadcast. by rewrite members_sendMessage.
  - by apply addMembers_NoDup.
  - by apply removeMember_NoDup.
  - by rewrite members_exit.
  - by rewrite members_on_open.
  - unfold deliver. case_match; [|done].
    induction (message_listeners _) as [|n IH]; simpl; [done|].
    by apply on_message_NoDup.
  - unfold on_close, onError, emit. by repeat case_match.
  - unfold on_error, onError, emit. by repeat case_match.
  - by rewrite members_fire_timer.
  - unfold subscribe_callback. by repeat case_match.
  - exact Hnd.
  - exact Hnd.
Qed.

(** The invariant of the roster: whatever happens to a new client, no two
    entries of its roster have the same [id]. *)
Lemma run_roster_unique (inputs : list Input) :
  NoDup (id <$> members (run new_client inputs)).
Proof.
  unfold run.
  assert (NoDup (id <$> members new_client)) as H by apply NoDup_nil_2.
  revert H. generalize new_client.
  induction inputs as [|i inputs IH]; intros s Hnd; simpl; [done|].
  apply IH. by apply handle_NoDup.
Qed.

(** ** A session *)

(** The server sends the roster [[ann]], then [eve] joins, then [ann]
    leaves: the roster goes from [[ann]] to [[ann; eve]] to [[eve]], and the
    departure is announced at once with the snapshot [[eve]]. *)
Example members_join_leave :
  members (run opened_client [SocketMessage [] 0 (MsgMembers [ann])]) = [ann]
  ∧ members
      (run opened_client
         [SocketMessage [] 0 (MsgMembers [ann]);
          SocketMessage [] 0 (MsgJoin eve)]) = [ann; eve]
  ∧ members
      (run opened_client
         [SocketMessage [] 0 (MsgMembers [ann]);
          SocketMessage [] 0 (MsgJoin eve);
          SocketMessage [] 0 (MsgLeave ann)]) = [eve]
  ∧ emitted EVENT.membersChange
      (trace
         (run opened_client
            [SocketMessage [] 0 (MsgMembers [ann]);
             SocketMessage [] 0 (MsgJoin eve);
             SocketMessage [] 0 (MsgLeave ann)])) = [PMembers [eve]].
Proof. vm_compute. repeat split. Qed.

(** * Further properties *)

(** ** More on the roster *)

Lemma push_member_prefix (ms : list Member) (m : Member) :
  ms `prefix_of` push_member ms m.
Proof.
  unfold push_member. case_match; [done|]. by apply prefix_app_r.
Qed.

Lemma foldl_push_prefix (l ms : list Member) :
  ms `prefix_of` foldl push_member ms l.
Proof.
  revert ms. induction l as [|m l IH]; intros ms; simpl; [done|].
  etrans; [apply (push_member_prefix ms m) | apply IH].
Qed.

Lemma push_member_ids (ms : list Member) (m : Member) (i : Z) :
  i ∈ id <$> push_member ms m ↔ i ∈ id <$> ms ∨ i = id m.
Proof.
  destruct (decide (id m ∈ id <$> ms)) as [Hin|Hin].
  - rewrite push_member_present by done. split; [by left|].
    intros [?| ->]; done.
  - rewrite push_member_fresh by done. rewrite fmap_app, elem_of_app.
    simpl. by rewrite list_elem_of_singleton.
Qed.

Lemma foldl_push_ids (l ms : list Member) (i : Z) :
  i ∈ id <$> foldl push_member ms l ↔ i ∈ id <$> ms ∨ i ∈ id <$> l.
Proof.
  revert ms. induction l as [|m l IH]; intros ms; simpl.
  - split; [by left|]. intros [?|H]; [done|]. by apply elem_of_nil in H.
  - rewrite IH, push_member_ids, elem_of_cons. tauto.
Qed.

(** The roster only grows under [addMembers]: what was there stays, in
    its place, and new entries go after it. *)
Theorem addMembers_keeps_roster (memberList : list Member) (s : OTClient) :
  members s `prefix_of` members (addMembers memberList s).
Proof. rewrite members_addMembers. apply foldl_push_prefix. Qed.

(** After [addMembers], the ids of the roster are those it had and those
    of the list. *)
Theorem addMembers_ids (memberList : list Member) (s : OTClient) (i : Z) :
  i ∈ id <$> members (addMembers memberList s)
  ↔ i ∈ id <$> members s ∨ i ∈ id <$> memberList.
Proof. rewrite members_addMembers. apply foldl_push_ids. Qed.

(** A list added a second time changes nothing in the roster, whatever
    happened to the list's own duplicates the first time. *)
Theorem addMembers_again (memberList : list Member) (s : OTClient) :
  members (addMembers memberList (addMembers memberList s))
  = members (addMembers memberList s).
Proof.
  rewrite (members_addMembers memberList (addMembers memberList s)).
  apply foldl_push_present, Forall_forall. intros m Hm.
  rewrite members_addMembers. apply foldl_push_ids. right.
  by apply list_elem_of_fmap_2.
Qed.

Lemma filter_all {A} (P : A → Prop) `{∀ x, Decision (P x)} (l : list A) :
  Forall P l → filter P l = l.
Proof.
  induction 1 as [|x l Hx _ IH]; [done|].
  rewrite filter_cons_True by done. by rewrite IH.
Qed.

(** [removeMember] for a [uuid] the roster does not have leaves the roster
    as it is and still emits [membersChange], at once, with the snapshot. *)
Theorem removeMember_absent (users : list Member) (p : Member)
  (s : OTClient) :
  uuid p ∉ uuid <$> members s →
  members (removeMember users p s) = members s
  ∧ trace (removeMember users p s)
    = trace s ++ [Emit EVENT.membersChange (PMembers (normalizeMembers users s))].
Proof.
  intros Hnot.
  assert (filter (fun user => uuid user ≠ uuid p) (members s) = members s)
    as Hf.
  { apply filter_all, Forall_forall. intros m Hm E. apply Hnot.
    rewrite <- E. by apply list_elem_of_fmap_2. }
  split.
  - by rewrite members_removeMember.
  - unfold removeMember, emit, normalizeMembers. simpl. by rewrite Hf.
Qed.

Lemma removeMember_absent_witness :
  members (removeMember [] eve (set_members [ann] new_client)) = [ann].
Proof.
  refine (proj1 (removeMember_absent [] eve (set_members [ann] new_client) _)).
  simpl. intros H. apply list_elem_of_singleton in H. discriminate.
Defined.

(** ** More on the snapshot *)

Lemma normalize_fold_complete cm (l : list Member) acc :
  (∀ i, is_Some (acc.1 !! i) → i ∈ id <$> acc.2) →
  ∀ i, i ∈ id <$> acc.2 ∨ i ∈ id <$> l →
       i ∈ id <$> (foldl (normalize_step cm) acc l).2.
Proof.
  revert acc. induction l as [|m l IH]; intros acc Hdom i Hi; simpl.
  - destruct Hi as [?|Hi]; [done|]. by apply elem_of_nil in Hi.
  - apply IH.
    + intros j [v Hj]. unfold normalize_step in *.
      destruct (acc.1 !! id m) eqn:E; simpl in *; [apply Hdom; by eexists|].
      rewrite fmap_app, elem_of_app.
      destruct (decide (id m = j)) as [<-|Hne].
      * right. simpl. apply list_elem_of_here.
      * left. apply Hdom. rewrite lookup_insert_ne in Hj by done. by eexists.
    + rewrite fmap_cons, elem_of_cons in Hi. unfold normalize_step.
      destruct (acc.1 !! id m) eqn:E; simpl.
      * destruct Hi as [Hi|[->|Hi]]; [by left| |by right].
        left. apply Hdom. by eexists.
      * rewrite fmap_app, elem_of_app. simpl.
        destruct Hi as [Hi|[->|Hi]]; [by left; left| |by right].
        left. right. apply list_elem_of_here.
Qed.

(** The snapshot has exactly the ids of the roster, each of them once,
    also for a roster that was given duplicates. *)
Theorem normalizeMembers_ids (users : list Member) (s : OTClient) :
  NoDup (id <$> normalizeMembers users s)
  ∧ ∀ i, i ∈ id <$> normalizeMembers users s ↔ i ∈ id <$> members s.
Proof.
  split; [apply normalizeMembers_NoDup|]. intros i. split.
  - intros (e & -> & He)%list_elem_of_fmap.
    apply normalizeMembers_elem in He as (m & Hm & ->).
    simpl. by apply list_elem_of_fmap_2.
  - intros Hi. apply normalize_fold_complete; simpl.
    + intros j [v Hj]. by rewrite lookup_empty in Hj.
    + right. rewrite fmap_reverse. by apply elem_of_reverse.
Qed.

Lemma normalize_fold_fresh cm (l : list Member) acc :
  NoDup (id <$> l) →
  (∀ m, m ∈ l → acc.1 !! id m = None) →
  (foldl (normalize_step cm) acc l).2 = acc.2 ++ (cloneMember cm <$> l).
Proof.
  revert acc. induction l as [|m l IH]; intros acc Hnd Hfresh; simpl.
  - by rewrite app_nil_r.
  - rewrite fmap_cons in Hnd. apply NoDup_cons in Hnd as [Hm Hnd].
    unfold normalize_step at 2.
    rewrite (Hfresh m) by apply list_elem_of_here.
    rewrite IH; simpl.
    + by rewrite <- app_assoc.
    + done.
    + intros m' Hm'. rewrite lookup_insert_ne.
      * apply Hfresh. by apply list_elem_of_further.
      * intros E. apply Hm. rewrite E. by apply list_elem_of_fmap_2.
Qed.

Lemma normalize_unique_roster (users : list Member) (s : OTClient) :
  NoDup (id <$> members s) →
  normalizeMembers users s
  = cloneMember (colorMap_of users) <$> reverse (members s).
Proof.
  intros Hnd. unfold normalizeMembers.
  rewrite normalize_fold_fresh; simpl; [done| |done].
  by rewrite fmap_reverse, reverse_Permutation.
Qed.

(** What the application gets in [membersChange]: the roster of a client
    never has duplicate ids, so the snapshot lists every entry of it, the
    last added first, each a copy with its colour replaced by what
    [colorMap] reads under its [uuid]. *)
Theorem snapshot_is_reversed_roster (inputs : list Input)
  (users : list Member) :
  normalizeMembers users (run new_client inputs)
  = cloneMember (colorMap_of users) <$> reverse (members (run new_client inputs)).
Proof. apply normalize_unique_roster, run_roster_unique. Qed.

(** The invariant of the roster: whatever calls, messages and timers come,
    in whatever order, no two entries of the roster have the same [id]. *)
Theorem roster_unique_always (inputs : list Input) :
  NoDup (id <$> members (run new_client inputs)).
Proof. apply run_roster_unique. Qed.

Lemma colorMap_of_snoc (users : list Member) (u : Member) :
  colorMap_of (users ++ [u])
  = colorMap_set (uuid u) (color u) (colorMap_of users).
Proof. unfold colorMap_of. by rewrite foldl_snoc. Qed.

Lemma colorMap_set_ne (k key : string) (v : Color) (m : gmap string Color) :
  key ≠ k → colorMap_set key v m !! k = m !! k.
Proof.
  intros Hne. unfold colorMap_set. destruct (String.eqb key "__proto__"); [done|].
  by rewrite lookup_insert_ne.
Qed.

Lemma colorMap_of_absent (users : list Member) (k : string) :
  k ∉ uuid <$> users → colorMap_of users !! k = None.
Proof.
  induction users as [|u users IH] using rev_ind; intros Hk.
  - apply lookup_empty.
  - rewrite colorMap_of_snoc. rewrite fmap_app, not_elem_of_app in Hk.
    destruct Hk as [Hk Hu]. rewrite colorMap_set_ne; [by apply IH|].
    intros E. apply Hu. simpl. rewrite E. apply list_elem_of_here.
Qed.

(** Nothing is ever stored under [__proto__]. *)
Lemma colorMap_of_proto (users : list Member) :
  colorMap_of users !! "__proto__" = None.
Proof.
  induction users as [|u users IH] using rev_ind.
  - apply lookup_empty.
  - rewrite colorMap_of_snoc. unfold colorMap_set.
    destruct (String.eqb (uuid u) "__proto__") eqn:E; [done|].
    apply String.eqb_neq in E. by rewrite lookup_insert_ne.
Qed.

Lemma colorMap_of_last (pre post : list Member) (u : Member) :
  uuid u ≠ "__proto__" →
  uuid u ∉ uuid <$> post →
  colorMap_of (pre ++ u :: post) !! uuid u = Some (color u).
Proof.
  intros Hp. induction post as [|x post IH] using rev_ind; intros Hk.
  - rewrite colorMap_of_snoc. unfold colorMap_set.
    rewrite (proj2 (String.eqb_neq _ _) Hp). apply lookup_insert_eq.
  - rewrite fmap_app, not_elem_of_app in Hk. destruct Hk as [Hk Hx].
    replace (pre ++ u :: post ++ [x]) with ((pre ++ u :: post) ++ [x])
      by by rewrite <- app_assoc.
    rewrite colorMap_of_snoc, colorMap_set_ne; [by apply IH|].
    intros E. apply Hx. simpl. rewrite E. apply list_elem_of_here.
Qed.

(** The colour of a snapshot entry is never the one stored in the roster.
    When the engine reports no member with the entry's [uuid], it is what
    an empty object gives under that name: [undefined], or, for a [uuid]
    that is the name of a member of [Object.prototype] ([constructor],
    [toString], [__proto__], ...), that member. *)
Theorem normalizeMembers_color_absent (users : list Member) (s : OTClient) :
  Forall (fun e => uuid e ∉ uuid <$> users →
                   color e = if bool_decide (uuid e ∈ Object_prototype)
                             then CInherited (uuid e) else CUndefined)
    (normalizeMembers users s).
Proof.
  apply Forall_forall. intros e (m & _ & ->)%normalizeMembers_elem Hk.
  simpl in *. unfold colorMap_get. by rewrite colorMap_of_absent.
Qed.

(** When the engine reports several members with one [uuid], the last of
    them gives the colour of the snapshot entries with that [uuid]; only
    under the [uuid] [__proto__] nothing the engine reports is kept, and
    the entries get [Object.prototype] itself. *)
Theorem normalizeMembers_color_last (pre post : list Member) (u : Member)
  (s : OTClient) :
  uuid u ≠ "__proto__" →
  uuid u ∉ uuid <$> post →
  Forall (fun e => uuid e = uuid u → color e = color u)
    (normalizeMembers (pre ++ u :: post) s)
  ∧ Forall (fun e => uuid e = "__proto__" → color e = CInherited "__proto__")
      (normalizeMembers (pre ++ u :: post) s).
Proof.
  intros Hp Hk. split; apply Forall_forall;
    intros e (m & _ & ->)%normalizeMembers_elem E; simpl in *;
    unfold colorMap_get; rewrite E.
  - by rewrite colorMap_of_last.
  - by rewrite colorMap_of_proto.
Qed.

Lemma normalizeMembers_color_last_witness :
  Forall (fun e => uuid e = "u1" → color e = CStr "blue")
    (normalizeMembers
       [mkMember 1 "a.png" "Ann" 10 "u1" (CStr "red");
        mkMember 1 "a.png" "Ann" 10 "u1" (CStr "blue"); eve]
       (set_members [ann] new_client)).
Proof.
  refine (proj1 (normalizeMembers_color_last
                   [mkMember 1 "a.png" "Ann" 10 "u1" (CStr "red")] [eve]
                   (mkMember 1 "a.png" "Ann" 10 "u1" (CStr "blue"))
                   (set_members [ann] new_client) _ _)).
  - discriminate.
  - simpl. intros H. apply list_elem_of_singleton in H. discriminate.
Defined.

(** An entry whose [uuid] is [constructor], with nothing from the engine,
    comes out with the constructor of objects for a colour. *)
Example snapshot_inherits_constructor :
  normalizeMembers []
    (set_members [mkMember 3 "c.png" "Cy" 13 "constructor" (CStr "red")]
       new_client)
  = [mkMember 3 "c.png" "Cy" 13 "constructor" (CInherited "constructor")].
Proof. vm_compute. reflexivity. Qed.

(** ** Sending *)

Lemma obj_get_set_eq (k : string) (v : value) (o : list (string * value)) :
  obj_get k (obj_set k v o) = v.
Proof.
  induction o as [|[k' v'] o IH]; simpl.
  - by rewrite String.eqb_refl.
  - destruct (String.eqb k k') eqn:E; simpl.
    + by rewrite String.eqb_refl.
    + by rewrite E.
Qed.

Lemma obj_get_set_ne (k k' : string) (v : value) (o : list (string * value)) :
  k ≠ k' → obj_get k' (obj_set k v o) = obj_get k' o.
Proof.
  intros Hne. induction o as [|[k0 v0] o IH]; simpl.
  - by rewrite (proj2 (String.eqb_neq k' k)).
  - destruct (String.eqb k k0) eqn:E; simpl.
    + apply String.eqb_eq in E. subst k0.
      by rewrite (proj2 (String.eqb_neq k' k)).
    + by rewrite IH.
Qed.

Lemma sent_app tr1 tr2 : sent (tr1 ++ tr2) = sent tr1 ++ sent tr2.
Proof. unfold sent. apply omap_app. Qed.

(** Every message that goes out carries the [uuid] of the current member
    and the id of the document, stamped over whatever the caller put under
    these keys ([undefined] before the server's [ready]); the other keys
    go out as given. *)
Theorem sendMessage_stamps (action : string) (data : list (string * value))
  (sid : nat) (s : OTClient) :
  socket s = Some sid →
  ∃ out,
    trace (sendMessage action data s) = trace s ++ [SocketSend sid action out]
    ∧ obj_get "uuid" out = opt_str (uuid <$> current s)
    ∧ obj_get "doc_id" out = opt_str (doc_id <$> doc s)
    ∧ ∀ k, k ≠ "uuid" → k ≠ "doc_id" → obj_get k out = obj_get k data.
Proof.
  intros Hs. unfold sendMessage. rewrite Hs. eexists. split; [reflexivity|].
  split; [apply obj_get_set_eq|]. split.
  - rewrite obj_get_set_ne by discriminate. apply obj_get_set_eq.
  - intros k Hu Hd. rewrite !obj_get_set_ne by done. done.
Qed.

Lemma sendMessage_stamps_witness :
  sent (trace (sendMessage "broadcast" [("uuid", VStr "forged")]
                 (set_current (Some ann) opened_client)))
  = [(0%nat, "broadcast", [("uuid", VStr "u1"); ("doc_id", VUndefined)])].
Proof.
  destruct (sendMessage_stamps "broadcast" [("uuid", VStr "forged")] 0%nat
              (set_current (Some ann) opened_client)) as (out & Htr & _).
  - reflexivity.
  - vm_compute. reflexivity.
Defined.

Lemma sent_onError e s :
  socket (onError e s) = socket s
  ∧ sent (trace (onError e s)) = sent (trace s).
Proof.
  unfold onError, emit. destruct (emit_throws _ _); simpl;
    rewrite sent_app; simpl; by rewrite app_nil_r.
Qed.

(** What each step leaves of [sent] when the client has no transport. *)
Lemma sent_on_message_no_socket users t msg s :
  socket s = None →
  socket (on_message users t msg s) = None
  ∧ sent (trace (on_message users t msg s)) = sent (trace s).
Proof.
  intros Hs. destruct msg; simpl; rewrite ?sent_app; simpl;
    rewrite ?app_nil_r; try done.
  case_match; simpl; rewrite ?sent_app; simpl; rewrite ?app_nil_r; done.
Qed.

Lemma sent_handle_no_socket s i :
  (∀ sid, i ≠ SocketOpen sid) →
  socket s = None →
  socket (handle s i) = None ∧ sent (trace (handle s i)) = sent (trace s).
Proof.
  intros Hi Hs. destruct i; cbn [handle].
  - unfold connect. rewrite Hs. simpl. rewrite sent_app. simpl.
    by rewrite app_nil_r.
  - unfold broadcast, sendMessage. by rewrite Hs.
  - simpl. rewrite sent_app. simpl. by rewrite app_nil_r.
  - simpl. rewrite sent_app. simpl. by rewrite app_nil_r.
  - unfold exit, disconnect, transmit. case_bool_decide; simpl; [|done].
    rewrite Hs. simpl. rewrite sent_app. simpl. by rewrite app_nil_r.
  - by destruct (Hi sid).
  - unfold deliver. case_match; [|done].
    induction (message_listeners _) as [|n [IH1 IH2]]; simpl; [done|].
    destruct (sent_on_message_no_socket users t msg _ IH1) as [H1 H2].
    split; [done|]. by rewrite H2.
  - case_match; [|done]. unfold on_close. case_bool_decide; [|done].
    destruct (sent_onError
                {| code := ERROR_CODE.DISCONNECTED; level := ERROR_LEVEL.FATAL;
                   message := "网络连接异常，无法继续编辑"; error := None |} s)
      as [-> ->]. done.
  - case_match; [|done]. unfold on_error.
    destruct (sent_onError
                {| code := ERROR_CODE.CONNECTION_ERROR;
                   level := ERROR_LEVEL.FATAL;
                   message := "协作服务异常，无法继续编辑";
                   error := Some err |} s)
      as [-> ->]. done.
  - unfold fire_timer. destruct (timers s !! tid) as [[ms|]|]; [| |done].
    + unfold heartbeat_tick, checkHeartbeat, sendMessage. simpl. rewrite Hs.
      repeat case_match; simpl in *; first [congruence | done].
    + simpl. rewrite sent_app. simpl. by rewrite app_nil_r.
  - unfold subscribe_callback, transmit. repeat case_match; simpl;
      rewrite ?sent_app; simpl; rewrite ?app_nil_r; done.
  - split; [exact Hs | reflexivity].
  - split; [exact Hs | reflexivity].
Qed.

(** Nothing goes out before a transport has opened: as long as no [open]
    event has come, broadcasts and heartbeats are dropped without a word. *)
Theorem nothing_sent_before_open (inputs : list Input) :
  Forall (fun i => ∀ sid, i ≠ SocketOpen sid) inputs →
  socket (run new_client inputs) = None
  ∧ sent (trace (run new_client inputs)) = [].
Proof.
  unfold run.
  assert (socket new_client = None ∧ sent (trace new_client) = []) as H
    by done.
  revert H. generalize new_client.
  induction inputs as [|i inputs IH]; intros s [Hs Ht] Hall; simpl; [done|].
  apply Forall_cons in Hall as [Hi Hall].
  destruct (sent_handle_no_socket s i Hi Hs) as [H1 H2].
  apply IH; [|done]. split; [done|]. by rewrite H2.
Qed.

Lemma nothing_sent_before_open_witness :
  sent (trace (run new_client
                 [CallConnect "wss://collab.test/?v=1" "doc-1" None None;
                  CallBroadcast (VStr "chat") (VStr "hello")])) = [].
Proof.
  refine (proj2 (nothing_sent_before_open
                   [CallConnect "wss://collab.test/?v=1" "doc-1" None None;
                    CallBroadcast (VStr "chat") (VStr "hello")] _)).
  repeat (apply Forall_cons; split; [intros sid; discriminate|]).
  apply Forall_nil_2.
Defined.

(** ** More on the heartbeat monitor *)

(** Whether the tick of a heartbeat timer sends: the transport is marked
    open and either nothing was sent yet or [millisecond] ms have passed
    since the last heartbeat. *)
Lemma tick_trace (users : list Member) (now : Z) (tid : positive)
  (millisecond : Z) (sid : nat) (s : OTClient) :
  timers s !! tid = Some (TkHeartbeat millisecond) →
  socket s = Some sid →
  let due :=
    match heartbeat s with
    | None => true
    | Some hb => Z.leb millisecond (now - datetime hb)
    end in
  sent (trace (fire_timer users now tid s))
  = sent (trace s)
      ++ (if negb (isClosed s) && due
          then [(sid, "heartbeat",
                 [("time", VNum now);
                  ("doc_id", opt_str (doc_id <$> doc s));
                  ("uuid", opt_str (uuid <$> current s))])]
          else [])
  ∧ heartbeat (fire_timer users now tid s)
    = (if negb (isClosed s) && due
       then Some {| timeout := tid; datetime := now |}
       else (fun hb => {| timeout := tid; datetime := datetime hb |})
              <$> heartbeat s)
  ∧ timers (fire_timer users now tid s)
    = <[next_timer s := TkHeartbeat millisecond]> (delete tid (timers s))
  ∧ next_timer (fire_timer users now tid s) = Pos.succ (next_timer s).
Proof.
  intros Ht Hs due. subst due.
  unfold fire_timer. rewrite Ht.
  unfold heartbeat_tick, checkHeartbeat, sendMessage. simpl. rewrite Hs.
  destruct (isClosed s), (heartbeat s) as [hb|] eqn:Hhb; simpl;
    try destruct (Z.leb millisecond (now - datetime hb)); simpl;
    rewrite ?Hs, ?Hhb; simpl; rewrite ?sent_app; simpl;
    rewrite ?app_nil_r, ?delete_delete_eq; done.
Qed.

(** A heartbeat goes out on a tick exactly when the transport is marked
    open and either no heartbeat was sent yet or at least [millisecond] ms
    have passed since the last one; only then is the time of the last
    heartbeat moved on. *)
Theorem tick_sends_when_due (users : list Member) (now : Z) (tid : positive)
  (millisecond : Z) (sid : nat) (s : OTClient) :
  timers s !! tid = Some (TkHeartbeat millisecond) →
  socket s = Some sid →
  sent (trace (fire_timer users now tid s))
  = sent (trace s)
      ++ (if negb (isClosed s)
             && match heartbeat s with
                | None => true
                | Some hb => Z.leb millisecond (now - datetime hb)
                end
          then [(sid, "heartbeat",
                 [("time", VNum now);
                  ("doc_id", opt_str (doc_id <$> doc s));
                  ("uuid", opt_str (uuid <$> current s))])]
          else [])
  ∧ datetime <$> heartbeat (fire_timer users now tid s)
    = (if negb (isClosed s)
          && match heartbeat s with
             | None => true
             | Some hb => Z.leb millisecond (now - datetime hb)
             end
       then Some now
       else datetime <$> heartbeat s).
Proof.
  intros Ht Hs.
  destruct (tick_trace users now tid millisecond sid s Ht Hs)
    as (Hsent & Hhb & _).
  split; [exact Hsent|]. rewrite Hhb.
  destruct (negb (isClosed s) && _); [done|]. by destruct (heartbeat s).
Qed.

Lemma tick_sends_when_due_witness :
  sent (trace (run opened_client [TimerFires [] 5000 1; TimerFires [] 6000 2]))
  = [(0%nat, "heartbeat",
      [("time", VNum 5000); ("doc_id", VUndefined); ("uuid", VUndefined)])].
Proof.
  destruct (tick_sends_when_due [] 6000 2 30000 0%nat
              (run opened_client [TimerFires [] 5000 1])) as [H _].
  - vm_compute. reflexivity.
  - reflexivity.
  - etrans; [exact H|]. vm_compute. reflexivity.
Defined.

(** Each tick arms the next one, and only that: whichever branch it takes,
    the fired timer is replaced by one new heartbeat timer with the same
    period. *)
Theorem tick_rearms_once (users : list Member) (now : Z) (tid : positive)
  (millisecond : Z) (sid : nat) (s : OTClient) :
  timers s !! tid = Some (TkHeartbeat millisecond) →
  socket s = Some sid →
  timers (fire_timer users now tid s)
  = <[next_timer s := TkHeartbeat millisecond]> (delete tid (timers s))
  ∧ next_timer (fire_timer users now tid s) = Pos.succ (next_timer s).
Proof.
  intros Ht Hs.
  destruct (tick_trace users now tid millisecond sid s Ht Hs)
    as (_ & _ & Htm & Hnx).
  by split.
Qed.

Lemma tick_rearms_once_witness :
  timers (fire_timer [] 5000 1 opened_client) = {[ 2%positive := TkHeartbeat 30000 ]}.
Proof.
  destruct (tick_rearms_once [] 5000 1 30000 0%nat opened_client) as [H _].
  - vm_compute. reflexivity.
  - reflexivity.
  - etrans; [exact H|]. apply map_eq. intros i.
    destruct (decide (i = 2%positive)) as [->|Hne].
    + by rewrite lookup_insert_eq, lookup_singleton_eq.
    + rewrite lookup_insert_ne, lookup_singleton_ne by done.
      destruct (decide (i = 1%positive)) as [->|Hne'].
      * apply lookup_delete_eq.
      * rewrite lookup_delete_ne by done. vm_compute.
        destruct i as [[]|[]|]; try done.
Defined.

(** ** Timers over whole runs *)

Lemma tstate_timers s s' : tstate s' = tstate s → timers s' = timers s.
Proof. intros E. exact (f_equal (fun x => x.1.1) E). Qed.

Lemma timers_ok_same s s' : tstate s' = tstate s → timers_ok s → timers_ok s'.
Proof.
  intros E. unfold timers_ok.
  rewrite (tstate_timers _ _ E).
  rewrite (f_equal (fun x => x.1.2) E : next_timer s' = next_timer s).
  by rewrite (f_equal (fun x => x.2) E : heartbeat s' = heartbeat s).
Qed.

Lemma timers_ok_fresh s : timers_ok s → timers s !! next_timer s = None.
Proof.
  intros [Hp _]. destruct (timers s !! next_timer s) eqn:E; [|done].
  apply Hp in E. lia.
Qed.

Lemma setTimeout_ok cb d s :
  timers_ok s →
  timers_ok (setTimeout cb d s).2 ∧ timers s ⊆ timers (setTimeout cb d s).2.
Proof.
  intros Hok. pose proof (timers_ok_fresh s Hok) as Hfresh.
  destruct Hok as [Hp Hh]. split; [split|]; simpl.
  - intros tid cb' Ht. destruct (decide (next_timer s = tid)) as [<-|Hne].
    + lia.
    + rewrite lookup_insert_ne in Ht by done. apply Hp in Ht. lia.
  - intros hb Hhb. destruct (Hh hb Hhb) as [Hlt Hnone]. split; [lia|].
    rewrite lookup_insert_ne; [done|]. lia.
  - by apply insert_subseteq.
Qed.

(** Clearing the handle kept in [this.heartbeat] cancels nothing. *)
Lemma clear_heartbeat_same s hb :
  timers_ok s → heartbeat s = Some hb →
  tstate (clearTimeout (timeout hb) s) = tstate s.
Proof.
  intros [_ Hh] Hhb. destruct (Hh hb Hhb) as [_ Hnone].
  unfold tstate. simpl. by rewrite delete_id.
Qed.

Lemma checkHeartbeat_ok ms s :
  timers_ok s →
  timers_ok (checkHeartbeat ms s) ∧ timers s ⊆ timers (checkHeartbeat ms s).
Proof.
  intros Hok. unfold checkHeartbeat. destruct (socket s); [|done].
  destruct (heartbeat s) as [hb|] eqn:Hhb; [|by apply setTimeout_ok].
  pose proof (clear_heartbeat_same s hb Hok Hhb) as E.
  destruct (setTimeout_ok (TkHeartbeat ms) 1000 (clearTimeout (timeout hb) s))
    as [H1 H2]; [by eapply timers_ok_same|].
  split; [done|]. by rewrite <- (tstate_timers _ _ E).
Qed.

Lemma exit_tstate s : timers_ok s → tstate (exit s) = tstate s.
Proof.
  intros Hok. unfold exit, disconnect. case_bool_decide; [|done]. simpl.
  destruct (socket s); [|done]. simpl.
  destruct (heartbeat s) as [hb|] eqn:Hhb; [|done].
  destruct Hok as [_ Hh]. destruct (Hh hb Hhb) as [_ Hnone].
  unfold tstate. simpl. by rewrite delete_id.
Qed.

Lemma on_message_ok users t msg s :
  timers_ok s →
  timers_ok (on_message users t msg s)
  ∧ timers s ⊆ timers (on_message users t msg s).
Proof.
  intros Hok. destruct msg; simpl; try done.
  - apply (setTimeout_ok TkMembersChange 1000
             (set_members (foldl push_member (members s) data) s) Hok).
  - apply (setTimeout_ok TkMembersChange 1000
             (set_members (push_member (members s) data) s) Hok).
  - by case_match.
Qed.

Lemma deliver_ok users sid msg s :
  timers_ok s →
  timers_ok (deliver users sid msg s)
  ∧ timers s ⊆ timers (deliver users sid msg s).
Proof.
  intros Hok. unfold deliver. case_match; [|done].
  induction (message_listeners _) as [|n [IH1 IH2]]; simpl; [done|].
  destruct (on_message_ok users t msg _ IH1) as [H1 H2].
  split; [done|]. by etrans.
Qed.

Lemma fire_timer_ok users now tid s :
  timers_ok s →
  timers_ok (fire_timer users now tid s)
  ∧ delete tid (timers s) ⊆ timers (fire_timer users now tid s).
Proof.
  intros Hok. unfold fire_timer.
  destruct (timers s !! tid) as [cb|] eqn:Ht.
  2: { split; [done|]. apply delete_subseteq. }
  assert (timers_ok (set_timers (delete tid (timers s)) (next_timer s) s))
    as Hok1.
  { destruct Hok as [Hp Hh]. split; simpl.
    - intros t c [_ Hc]%lookup_delete_Some. by eapply Hp.
    - intros hb Hhb. destruct (Hh hb Hhb) as [Hlt Hnone]. split; [done|].
      destruct (decide (tid = timeout hb)) as [->|Hne].
      + apply lookup_delete_eq.
      + by rewrite lookup_delete_ne. }
  destruct cb as [ms|]; [|done].
  unfold heartbeat_tick.
  match goal with |- context [checkHeartbeat ms ?x] => set (s2 := x) end.
  assert (timers_ok s2 ∧ timers s2 = delete tid (timers s)) as [Hok2 Htm].
  { assert (tid < next_timer s)%positive as Hlt
      by (destruct Hok as [Hp _]; by eapply Hp).
    subst s2. simpl. unfold sendMessage. simpl.
    destruct (negb (isClosed s) && _); [|destruct (heartbeat s) eqn:Hhb].
    - destruct (socket s); (split; [|done]); (split; simpl;
        [apply Hok1 | intros hb [= <-]; simpl; split; [done|];
                       apply lookup_delete_eq]).
    - split; [|done]. split; simpl; [apply Hok1|].
      intros hb [= <-]. simpl. split; [done|]. apply lookup_delete_eq.
    - done. }
  destruct (checkHeartbeat_ok ms s2 Hok2) as [H1 H2].
  split; [done|]. by rewrite <- Htm.
Qed.

Lemma handle_timers_ok s i : timers_ok s → timers_ok (handle s i).
Proof.
  intros Hok. destruct i; cbn [handle].
  - eapply timers_ok_same; [|exact Hok]. unfold connect. by case_match.
  - eapply timers_ok_same; [|exact Hok].
    unfold broadcast, sendMessage. by case_match.
  - apply (setTimeout_ok TkMembersChange 1000
             (set_members (foldl push_member (members s) memberList) s) Hok).
  - done.
  - eapply timers_ok_same; [|exact Hok]. by apply exit_tstate.
  - unfold on_open. case_match; [|done]. by apply checkHeartbeat_ok.
  - by apply deliver_ok.
  - eapply timers_ok_same; [|exact Hok].
    unfold on_close, onError, emit. by repeat case_match.
  - eapply timers_ok_same; [|exact Hok].
    unfold on_error, onError, emit. by repeat case_match.
  - by apply fire_timer_ok.
  - eapply timers_ok_same; [|exact Hok].
    unfold subscribe_callback. by repeat case_match.
  - exact Hok.
  - exact Hok.
Qed.

Lemma run_timers_ok (inputs : list Input) : timers_ok (run new_client inputs).
Proof.
  unfold run.
  assert (timers_ok new_client) as H.
  { split; simpl; [|done]. intros tid cb Ht. by rewrite lookup_empty in Ht. }
  revert H. generalize new_client.
  induction inputs as [|i inputs IH]; intros s Hok; simpl; [done|].
  apply IH. by apply handle_timers_ok.
Qed.

Lemma handle_keeps_timers s i tid cb :
  timers_ok s →
  (∀ users now, i ≠ TimerFires users now tid) →
  timers s !! tid = Some cb →
  timers (handle s i) !! tid = Some cb.
Proof.
  intros Hok Hi Ht.
  assert (∀ s', timers s ⊆ timers s' → timers s' !! tid = Some cb) as Hsub.
  { intros s' Hs'. by eapply lookup_weaken. }
  assert (∀ s', tstate s' = tstate s → timers s' !! tid = Some cb) as Hsame.
  { intros s' E. by rewrite (tstate_timers _ _ E). }
  destruct i; cbn [handle].
  - apply Hsame. unfold connect. by case_match.
  - apply Hsame. unfold broadcast, sendMessage. by case_match.
  - apply Hsub.
    apply (setTimeout_ok TkMembersChange 1000
             (set_members (foldl push_member (members s) memberList) s) Hok).
  - done.
  - apply Hsame. by apply exit_tstate.
  - apply Hsub. unfold on_open. destruct (sockets s !! sid) as [t|]; [|done].
    match goal with
    | |- _ ⊆ timers (checkHeartbeat _ ?x) =>
        exact (proj2 (checkHeartbeat_ok 30000 x Hok))
    end.
  - apply Hsub. exact (proj2 (deliver_ok users sid msg s Hok)).
  - apply Hsame. unfold on_close, onError, emit. by repeat case_match.
  - apply Hsame. unfold on_error, onError, emit. by repeat case_match.
  - destruct (fire_timer_ok users now tid0 s Hok) as [_ Hsub'].
    eapply lookup_weaken; [|exact Hsub'].
    rewrite lookup_delete_ne; [done|]. intros ->. by destruct (Hi users now).
  - apply Hsame. unfold subscribe_callback. by repeat case_match.
  - exact Ht.
  - exact Ht.
Qed.

(** No timer is ever cancelled.  The handle that [checkHeartbeat] and
    [disconnect] clear is the one kept in [this.heartbeat], which a tick
    writes there when it has already fired; so a timer that is pending
    stays pending, with its callback, until it fires, whatever else
    happens to the client. *)
Theorem pending_timer_stays (inputs : list Input) (i : Input)
  (tid : positive) (cb : Timer) :
  timers (run new_client inputs) !! tid = Some cb →
  (∀ users now, i ≠ TimerFires users now tid) →
  timers (handle (run new_client inputs) i) !! tid = Some cb.
Proof.
  intros Ht Hi. apply handle_keeps_timers; [apply run_timers_ok|done..].
Qed.

Lemma pending_timer_stays_witness :
  timers (run new_client (open_scenario ++ [CallExit])) !! 1%positive
  = Some (TkHeartbeat 30000).
Proof.
  unfold run. rewrite foldl_snoc.
  apply (pending_timer_stays open_scenario CallExit 1 (TkHeartbeat 30000)).
  - vm_compute. reflexivity.
  - intros users now. discriminate.
Defined.

(** In particular [exit] does not stop the heartbeat monitor: the timers
    that were pending before it are pending after it. *)
Theorem exit_leaves_timers (inputs : list Input) :
  timers (exit (run new_client inputs)) = timers (run new_client inputs).
Proof.
  apply tstate_timers, exit_tstate, run_timers_ok.
Qed.

(** ** Exit, close and errors together *)

(** The [close] event that follows a call of [exit] raises nothing: the
    client stays as [exit] left it. *)
Theorem close_after_exit (s : OTClient) :
  on_close (exit s) = exit s
  ∧ emitted EVENT.error (trace (on_close (exit s)))
    = emitted EVENT.error (trace (exit s)).
Proof.
  assert (on_close (exit s) = exit s) as E.
  { unfold on_close. rewrite status_exit. by rewrite bool_decide_false by auto. }
  by rewrite E.
Qed.

(** A subscription that fails, or an engine whose [init] throws, raises
    nothing: no event reaches the application and the status stays what
    it was, so the client never becomes active. *)
Theorem subscribe_failure_is_silent (d : Doc) (defaultValue : option string)
  (err init_ok : bool) (me : option Member) (users : list Member)
  (s : OTClient) :
  err = true ∨ init_ok = false →
  status (subscribe_callback d defaultValue err init_ok me users s) = status s
  ∧ ∀ ev, emitted ev
            (trace (subscribe_callback d defaultValue err init_ok me users s))
          = emitted ev (trace s).
Proof.
  intros H. unfold subscribe_callback.
  destruct err; simpl.
  - split; [done|]. intros ev. rewrite emitted_app. simpl. apply app_nil_r.
  - destruct H as [?| ->]; [done|]. simpl. split; [done|]. intros ev.
    rewrite !emitted_app. simpl. by rewrite !app_nil_r.
Qed.

Lemma subscribe_failure_is_silent_witness :
  isActive
    (subscribe_callback (mkDoc "yanmao" "doc-1") None true true None []
       opened_client) = false.
Proof.
  destruct (subscribe_failure_is_silent (mkDoc "yanmao" "doc-1") None true true
              None [] opened_client) as [Hst _].
  - by left.
  - unfold isActive. rewrite Hst. reflexivity.
Defined.

(** A subscription that succeeds tells the application, in this order,
    that the client is ready, what the roster is and that the status is
    now [active]. *)
Theorem subscribe_success_activates (d : Doc) (defaultValue : option string)
  (me : option Member) (users : list Member) (s : OTClient) :
  isActive (subscribe_callback d defaultValue false true me users s) = true
  ∧ omap (fun e => match e with Emit ev p => Some (ev, p) | _ => None end)
      (trace (subscribe_callback d defaultValue false true me users s))
    = omap (fun e => match e with Emit ev p => Some (ev, p) | _ => None end)
        (trace s)
        ++ [("ready", PMember me);
            (EVENT.membersChange, PMembers (normalizeMembers users s));
            (EVENT.statusChange,
             PObj [("form", opt_str (status s)); ("to", VStr STATUS.active)])].
Proof.
  split; [reflexivity|].
  unfold subscribe_callback, transmit, emit. simpl.
  rewrite !omap_app. simpl. by rewrite !app_nil_r, <- !app_assoc.
Qed.

(** ** From [connect] to the first broadcast *)

Lemma sockets_checkHeartbeat ms s :
  sockets (checkHeartbeat ms s) = sockets s.
Proof. unfold checkHeartbeat. repeat case_match; reflexivity. Qed.

Lemma sockets_on_open sid s :
  sockets (on_open sid s) !! sid
  = (fun t => {| t_url := t_url t; t_docID := t_docID t;
                 t_defaultValue := t_defaultValue t;
                 t_collectionName := t_collectionName t;
                 message_listeners := S (message_listeners t) |})
      <$> sockets s !! sid.
Proof.
  unfold on_open. destruct (sockets s !! sid) as [t|] eqn:E.
  - rewrite sockets_checkHeartbeat. simpl. apply lookup_insert_eq.
  - simpl. by rewrite E.
Qed.

(** A transport has one [message] listener for each time it has opened. *)
Lemma listeners_count_opens (url docID : string)
  (defautlValue collectionName : option string) (n : nat) (s : OTClient) :
  message_listeners
    <$> sockets (Nat.iter n (on_open (next_socket s))
                   (connect url docID defautlValue collectionName s))
        !! next_socket s
  = Some n.
Proof.
  induction n as [|n IH]; simpl.
  - unfold connect. destruct (socket s); simpl; by rewrite lookup_insert_eq.
  - rewrite sockets_on_open.
    destruct (sockets _ !! next_socket s) as [t|]; simpl in *; [|done].
    by injection IH as ->.
Qed.

(** A broadcast reaches the application once for each time the transport
    has opened since [connect]: not at all before the first [open], once
    after it, and once more for every reconnection after that; an echo of
    the client's own [uuid] never does. *)
Theorem broadcast_events_per_open (url docID : string)
  (defautlValue collectionName : option string) (users : list Member)
  (sender body type : value) (n : nat) (s : OTClient) :
  emitted EVENT.message
    (trace
       (deliver users (next_socket s) (MsgBroadcast sender body type)
          (Nat.iter n (on_open (next_socket s))
             (connect url docID defautlValue collectionName s))))
  = emitted EVENT.message
      (trace (Nat.iter n (on_open (next_socket s))
                (connect url docID defautlValue collectionName s)))
      ++ (if strict_eq sender
               (uuid <$> current
                           (Nat.iter n (on_open (next_socket s))
                              (connect url docID defautlValue collectionName s)))
          then []
          else replicate n (PObj [("type", type); ("body", body)])).
Proof.
  pose proof (listeners_count_opens url docID defautlValue collectionName n s)
    as H.
  destruct (sockets _ !! next_socket s) as [t|] eqn:Ht; [|done].
  injection H as <-. by apply deliver_broadcast.
Qed.

(** After [connect], the first [open] and the server's [ready], the client
    knows who it is and which document it is on (in the collection
    [yanmao] when [connect] was given none), and what it broadcasts goes
    out on the new transport stamped with both. *)
Theorem handshake_then_broadcast (url docID : string)
  (defautlValue collectionName : option string) (me : Member)
  (users : list Member) (type : value) (text : string) (s : OTClient) :
  let sid := next_socket s in
  let s' :=
    run s [CallConnect url docID defautlValue collectionName;
           SocketOpen sid; SocketMessage users sid (MsgReady me)] in
  current s' = Some me
  ∧ doc s' = Some {| doc_collection := default "yanmao" collectionName;
                     doc_id := docID |}
  ∧ socket s' = Some sid
  ∧ sent (trace (broadcast type (VStr text) s'))
    = sent (trace s')
        ++ [(sid, "broadcast",
             [("type", type); ("body", VStr text);
              ("doc_id", VStr docID); ("uuid", VStr (uuid me))])].
Proof.
  intros sid s'.
  assert (∃ t, sockets (handle (handle s (CallConnect url docID defautlValue
                                             collectionName)) (SocketOpen sid))
               !! sid = Some t
               ∧ message_listeners t = 1%nat ∧ t_docID t = docID
               ∧ t_collectionName t = default "yanmao" collectionName)
    as (t & Ht & Hn & Hd & Hc).
  { cbn [handle]. rewrite sockets_on_open.
    unfold connect. destruct (socket s); simpl; rewrite lookup_insert_eq;
      simpl; by eexists. }
  assert (socket (handle (handle s (CallConnect url docID defautlValue
                                      collectionName)) (SocketOpen sid))
          = Some sid) as Hs.
  { cbn [handle]. unfold on_open.
    assert (is_Some (sockets (connect url docID defautlValue collectionName s)
                       !! sid)) as [t0 Ht0].
    { unfold connect. destruct (socket s); simpl; rewrite lookup_insert_eq;
        by eexists. }
    rewrite Ht0.
    match goal with
    | |- socket (checkHeartbeat _ ?x) = _ =>
        exact (f_equal fst (link_checkHeartbeat 30000 x))
    end. }
  subst s'. unfold run. simpl foldl. cbn [handle].
  cbn [handle] in Ht, Hs. unfold deliver. rewrite Ht, Hn. simpl Nat.iter.
  cbn [on_message]. rewrite Hd, Hc.
  unfold load, broadcast, sendMessage. simpl. rewrite Hs. simpl.
  rewrite sent_app. by repeat split.
Qed.

(** ** Transports over whole runs *)

Lemma sstate_checkHeartbeat ms s : sstate (checkHeartbeat ms s) = sstate s.
Proof. unfold checkHeartbeat. repeat case_match; reflexivity. Qed.

Lemma sstate_sendMessage a d s : sstate (sendMessage a d s) = sstate s.
Proof. unfold sendMessage. case_match; reflexivity. Qed.

Lemma sstate_fire_timer users now tid s :
  sstate (fire_timer users now tid s) = sstate s.
Proof.
  unfold fire_timer. repeat case_match; try reflexivity.
  unfold heartbeat_tick. rewrite sstate_checkHeartbeat.
  repeat case_match; try reflexivity;
    exact (sstate_sendMessage "heartbeat" [("time", VNum now)] _).
Qed.

Lemma sstate_exit s : sstate (exit s) = sstate s.
Proof. unfold exit, disconnect. repeat case_match; reflexivity. Qed.

Lemma sstate_on_message users t msg s :
  sstate (on_message users t msg s) = sstate s.
Proof. destruct msg; simpl; try reflexivity. by case_match. Qed.

Lemma sstate_deliver users sid msg s :
  sstate (deliver users sid msg s) = sstate s.
Proof.
  unfold deliver. case_match; [|done].
  induction (message_listeners _) as [|n IH]; simpl; [done|].
  by rewrite sstate_on_message.
Qed.

Lemma sockets_ok_same s s' : sstate s' = sstate s → sockets_ok s → sockets_ok s'.
Proof.
  intros E. unfold sockets_ok.
  rewrite (f_equal (fun x => x.1.1) E : sockets s' = sockets s).
  rewrite (f_equal (fun x => x.1.2) E : next_socket s' = next_socket s).
  by rewrite (f_equal (fun x => x.2) E : socket s' = socket s).
Qed.

Lemma connect_sockets_ok url docID dv cn s :
  sockets_ok s → sockets_ok (connect url docID dv cn s).
Proof.
  intros [Hk Hs].
  assert (∀ s1, sstate s1 = sstate s →
            sockets_ok
              (log (SocketNew (next_socket s1) url)
                 (set_sockets
                    (<[next_socket s1 :=
                         {| t_url := url; t_docID := docID;
                            t_defaultValue := dv;
                            t_collectionName := default "yanmao" cn;
                            message_listeners := 0 |}]> (sockets s1))
                    (S (next_socket s1)) s1))) as H.
  { intros s1 E.
    pose proof (f_equal (fun x => x.1.1) E : sockets s1 = sockets s) as E1.
    pose proof (f_equal (fun x => x.1.2) E : next_socket s1 = next_socket s)
      as E2.
    pose proof (f_equal (fun x => x.2) E : socket s1 = socket s) as E3.
    split; simpl; rewrite E1, E2.
    - intros sid t Ht. destruct (decide (next_socket s = sid)) as [<-|Hne].
      + lia.
      + rewrite lookup_insert_ne in Ht by done. apply Hk in Ht. lia.
    - rewrite E3. intros sid Hsid.
      destruct (decide (next_socket s = sid)) as [<-|Hne].
      + rewrite lookup_insert_eq. by eexists.
      + rewrite lookup_insert_ne by done. by apply Hs. }
  unfold connect. destruct (socket s); by apply H.
Qed.

Lemma on_open_sockets_ok sid s : sockets_ok s → sockets_ok (on_open sid s).
Proof.
  intros [Hk Hs]. unfold on_open.
  destruct (sockets s !! sid) as [t|] eqn:Ht; [|done].
  eapply sockets_ok_same; [apply sstate_checkHeartbeat|].
  split; simpl.
  - intros sid' t' Ht'. destruct (decide (sid = sid')) as [<-|Hne].
    + by eapply Hk.
    + rewrite lookup_insert_ne in Ht' by done. by eapply Hk.
  - intros sid' [= <-]. rewrite lookup_insert_eq. by eexists.
Qed.

Lemma handle_sockets_ok s i : sockets_ok s → sockets_ok (handle s i).
Proof.
  intros Hok. destruct i; cbn [handle].
  - by apply connect_sockets_ok.
  - eapply sockets_ok_same; [|exact Hok]. apply sstate_sendMessage.
  - done.
  - done.
  - eapply sockets_ok_same; [|exact Hok]. apply sstate_exit.
  - by apply on_open_sockets_ok.
  - eapply sockets_ok_same; [|exact Hok]. apply sstate_deliver.
  - eapply sockets_ok_same; [|exact Hok].
    unfold on_close, onError, emit. by repeat case_match.
  - eapply sockets_ok_same; [|exact Hok].
    unfold on_error, onError, emit. by repeat case_match.
  - eapply sockets_ok_same; [|exact Hok]. apply sstate_fire_timer.
  - eapply sockets_ok_same; [|exact Hok].
    unfold subscribe_callback. by repeat case_match.
  - exact Hok.
  - exact Hok.
Qed.

Lemma run_sockets_ok (inputs : list Input) : sockets_ok (run new_client inputs).
Proof.
  unfold run.
  assert (sockets_ok new_client) as H.
  { split; simpl; [|done]. intros sid t Ht. by rewrite lookup_empty in Ht. }
  revert H. generalize new_client.
  induction inputs as [|i inputs IH]; intros s Hok; simpl; [done|].
  apply IH. by apply handle_sockets_ok.
Qed.

(** Calling [connect] on a client whose transport has opened closes that
    transport, and unless the client had exited the [close] event this
    brings raises a fatal [DISCONNECTED] error: when the application
    listens to [error] it gets the event and the status becomes [error];
    when it does not, [emit] throws and the status stays what it was. *)
Theorem reconnect_raises_disconnected (inputs : list Input)
  (url docID : string) (defautlValue collectionName : option string)
  (old : nat) :
  socket (run new_client inputs) = Some old →
  status (run new_client inputs) ≠ Some STATUS.exit →
  trace (run (run new_client inputs)
           [CallConnect url docID defautlValue collectionName;
            SocketClosed old])
  = trace (run new_client inputs)
      ++ [SocketClose old None None;
          SocketNew (next_socket (run new_client inputs)) url;
          (if bool_decide (EVENT.error ∈ listened (run new_client inputs))
           then Emit EVENT.error else Uncaught EVENT.error)
            (PError {| code := ERROR_CODE.DISCONNECTED;
                       level := ERROR_LEVEL.FATAL;
                       message := "网络连接异常，无法继续编辑";
                       error := None |})]
  ∧ status (run (run new_client inputs)
              [CallConnect url docID defautlValue collectionName;
               SocketClosed old])
    = (if bool_decide (EVENT.error ∈ listened (run new_client inputs))
       then Some STATUS.error
       else status (run new_client inputs)).
Proof.
  generalize (run_sockets_ok inputs). generalize (run new_client inputs).
  intros s [Hk Hs] Hold Hst.
  destruct (Hs old Hold) as [t Ht].
  assert (old ≠ next_socket s) as Hne by (apply Hk in Ht; lia).
  unfold run. simpl foldl. cbn [handle].
  unfold connect. rewrite Hold. simpl.
  rewrite lookup_insert_ne by done. rewrite Ht.
  unfold on_close. simpl. rewrite bool_decide_true by done.
  unfold onError, emit, emit_throws, EVENT.error. simpl.
  destruct (bool_decide ("error" ∈ listened s)); simpl;
    by rewrite <- !app_assoc.
Qed.

Lemma reconnect_raises_disconnected_witness :
  status (run (run new_client (CallOn EVENT.error :: open_scenario))
            [CallConnect "wss://collab.test/?v=2" "doc-2" None None;
             SocketClosed 0])
  = Some STATUS.error.
Proof.
  destruct (reconnect_raises_disconnected (CallOn EVENT.error :: open_scenario)
              "wss://collab.test/?v=2" "doc-2" None None 0) as [_ H].
  - reflexivity.
  - discriminate.
  - etrans; [exact H|]. reflexivity.
Defined.

Lemma isClosed_handle s i : isClosed s = false → isClosed (handle s i) = false.
Proof.
  intros Hc.
  assert (∀ s', link s' = link s → isClosed s' = false) as Hsame.
  { intros s' E. by rewrite (f_equal snd E : isClosed s' = isClosed s). }
  destruct i; cbn [handle].
  - unfold connect. by case_match.
  - apply Hsame, link_sendMessage.
  - done.
  - done.
  - apply Hsame, link_exit.
  - unfold on_open. destruct (sockets s !! sid); [|done].
    match goal with
    | |- isClosed (checkHeartbeat _ ?x) = _ =>
        exact (f_equal snd (link_checkHeartbeat 30000 x))
    end.
  - apply Hsame, link_deliver.
  - unfold on_close, onError, emit. by repeat case_match.
  - unfold on_error, onError, emit. by repeat case_match.
  - apply Hsame, link_fire_timer.
  - unfold subscribe_callback. by repeat case_match.
  - exact Hc.
  - exact Hc.
Qed.

(** Once a transport has opened the client counts as open for good:
    nothing that happens afterwards, neither a [close] event nor [exit],
    sets [isClosed] again. *)
Theorem open_flag_never_reset (inputs : list Input) (s : OTClient) :
  isClosed s = false → isClosed (run s inputs) = false.
Proof.
  unfold run. revert s.
  induction inputs as [|i inputs IH]; intros s Hc; simpl; [done|].
  apply IH. by apply isClosed_handle.
Qed.

Lemma open_flag_never_reset_witness :
  isClosed (run opened_client [SocketClosed 0; CallExit]) = false.
Proof.
  apply (open_flag_never_reset [SocketClosed 0; CallExit] opened_client).
  reflexivity.
Defined.

Lemma sent_exit s : sent (trace (exit s)) = sent (trace s).
Proof.
  unfold exit, disconnect, transmit. repeat case_match; simpl;
    rewrite ?sent_app; simpl; rewrite ?app_nil_r; done.
Qed.

(** The heartbeat outlives the session: after [exit] and the [close] that
    follows it, the tick that was pending still fires and arms the next
    one, and it sends a heartbeat under the very condition it would have
    without the [exit]: the transport counts as open and either nothing
    was sent yet or [millisecond] ms have passed since the last one. *)
Theorem heartbeat_survives_exit (inputs : list Input) (users : list Member)
  (now : Z) (tid : positive) (millisecond : Z) (sid : nat) :
  timers (run new_client inputs) !! tid = Some (TkHeartbeat millisecond) →
  socket (run new_client inputs) = Some sid →
  sent (trace (fire_timer users now tid (on_close (exit (run new_client inputs)))))
  = sent (trace (run new_client inputs))
      ++ (if negb (isClosed (run new_client inputs))
             && match heartbeat (run new_client inputs) with
                | None => true
                | Some hb => Z.leb millisecond (now - datetime hb)
                end
          then [(sid, "heartbeat",
                 [("time", VNum now);
                  ("doc_id", opt_str (doc_id <$> doc (run new_client inputs)));
                  ("uuid", opt_str (uuid <$> current (run new_client inputs)))])]
          else [])
  ∧ timers (fire_timer users now tid (on_close (exit (run new_client inputs))))
      !! next_timer (run new_client inputs)
    = Some (TkHeartbeat millisecond).
Proof.
  generalize (run_timers_ok inputs). generalize (run new_client inputs).
  intros s Hok Ht Hs.
  assert (on_close (exit s) = exit s) as ->.
  { unfold on_close. rewrite status_exit. by rewrite bool_decide_false by auto. }
  pose proof (exit_tstate s Hok) as E.
  pose proof (tstate_timers _ _ E) as Etm.
  pose proof (f_equal (fun x => x.1.2) E : next_timer (exit s) = next_timer s)
    as Enx.
  pose proof (f_equal (fun x => x.2) E : heartbeat (exit s) = heartbeat s)
    as Ehb.
  pose proof (f_equal fst (link_exit s) : socket (exit s) = socket s) as Esk.
  pose proof (f_equal snd (link_exit s) : isClosed (exit s) = isClosed s)
    as Ecl.
  assert (doc (exit s) = doc s ∧ current (exit s) = current s) as [Ed Ecur].
  { unfold exit, disconnect. by repeat case_match. }
  destruct (tick_trace users now tid millisecond sid (exit s))
    as (Hsent & _ & Htm & _).
  { by rewrite Etm. }
  { by rewrite Esk. }
  rewrite Hsent, Htm, Ecl, Ehb, Enx, Ed, Ecur, sent_exit.
  split; [done|]. apply lookup_insert_eq.
Qed.

Lemma heartbeat_survives_exit_witness :
  sent (trace (fire_timer [] 5000 1 (on_close (exit (run new_client open_scenario)))))
  = [(0%nat, "heartbeat",
      [("time", VNum 5000); ("doc_id", VUndefined); ("uuid", VUndefined)])].
Proof.
  destruct (heartbeat_survives_exit open_scenario [] 5000 1 30000 0%nat)
    as [H _].
  - vm_compute. reflexivity.
  - reflexivity.
  - etrans; [exact H|]. vm_compute. reflexivity.
Defined.

(** With a heartbeat on record the same tick keeps silent until the
    threshold has passed, after [exit] as before it. *)
Example heartbeat_after_exit_waits :
  sent (trace (fire_timer [] 6000 2
                 (on_close (exit (run opened_client [TimerFires [] 5000 1])))))
  = sent (trace (run opened_client [TimerFires [] 5000 1])).
Proof. vm_compute. reflexivity. Qed.

(** ** Window events *)

Lemma addEventListener_ok ev p : closures_ok p → closures_ok (addEventListener ev p).
Proof.
  unfold closures_ok. simpl. intros H. apply Forall_app. split.
  - eapply Forall_impl; [exact H|]. simpl. intros; lia.
  - apply Forall_singleton. simpl. lia.
Qed.

Lemma removeEventListener_same ev p :
  closures_ok p →
  window_listeners (removeEventListener ev p) = window_listeners p.
Proof.
  unfold closures_ok. simpl. intros H. apply filter_all.
  eapply Forall_impl; [exact H|]. intros [ev' c] Hc [= _ ->]. simpl in Hc. lia.
Qed.

Lemma removeEventListener_ok ev p :
  closures_ok p → closures_ok (removeEventListener ev p).
Proof.
  intros H. unfold closures_ok. rewrite removeEventListener_same by done.
  simpl. eapply Forall_impl; [exact H|]. simpl. intros; lia.
Qed.

Lemma dispatch_frame ev hidden p :
  window_listeners (dispatch ev hidden p) = window_listeners p
  ∧ next_closure (dispatch ev hidden p) = next_closure p.
Proof.
  unfold dispatch.
  assert (∀ (ls : list (WindowEvent * nat)) q,
            window_listeners q = window_listeners p →
                  next_closure q = next_closure p →
            window_listeners
              (foldl (fun q l => if decide (l.1 = ev)
                                 then window_listener ev hidden q else q) q ls)
            = window_listeners p
            ∧ next_closure
                (foldl (fun q l => if decide (l.1 = ev)
                                   then window_listener ev hidden q else q) q ls)
              = next_closure p) as H.
  { induction ls as [|l ls IH]; intros q H1 H2; simpl; [done|].
    apply IH; case_decide; try done; destruct ev, hidden; simpl; done. }
  by apply H.
Qed.

Lemma page_step_ok p op : closures_ok p → closures_ok (page_step p op).
Proof.
  intros H. destruct op; simpl.
  - by repeat apply addEventListener_ok.
  - by repeat apply removeEventListener_ok.
  - unfold closures_ok. destruct (dispatch_frame ev hidden p) as [-> ->]. done.
  - done.
Qed.

Lemma run_page_ok (ops : list PageOp) : closures_ok (run_page new_page ops).
Proof.
  unfold run_page.
  assert (closures_ok new_page) as H by apply Forall_nil_2.
  revert H. generalize new_page.
  induction ops as [|op ops IH]; intros p Hp; simpl; [done|].
  apply IH. by apply page_step_ok.
Qed.

Lemma unbindEvents_same p :
  closures_ok p → window_listeners (unbindEvents p) = window_listeners p.
Proof.
  intros H. unfold unbindEvents.
  rewrite (removeEventListener_same PageHide)
    by (by repeat apply removeEventListener_ok).
  rewrite (removeEventListener_same VisibilityChange)
    by (by apply removeEventListener_ok).
  by apply removeEventListener_same.
Qed.

(** [unbindEvents] unbinds nothing: the functions it hands to
    [removeEventListener] are new ones, which were never registered, so
    the listeners of the window are after it what they were before. *)
Theorem unbindEvents_removes_nothing (ops : list PageOp) :
  window_listeners (unbindEvents (run_page new_page ops))
  = window_listeners (run_page new_page ops).
Proof.
  apply unbindEvents_same, run_page_ok.
Qed.

Lemma exit_exit s : exit (exit s) = exit s.
Proof.
  unfold exit at 1. rewrite status_exit. by rewrite bool_decide_false by auto.
Qed.

Lemma dispatch_unload_fold hidden ev (ls : list (WindowEvent * nat)) q :
  ev = BeforeUnload ∨ ev = PageHide →
  client
    (foldl (fun q l => if decide (l.1 = ev)
                       then window_listener ev hidden q else q) q ls)
  = if decide (ev ∈ ls.*1) then exit (client q) else client q.
Proof.
  intros Hev. revert q. induction ls as [|l ls IH]; intros q.
  - reflexivity.
  - cbn [foldl]. rewrite IH, fmap_cons.
    destruct (decide (l.1 = ev)) as [E|E].
    + rewrite (decide_True (P := ev ∈ l.1 :: ls.*1))
        by (rewrite E; apply list_elem_of_here).
      assert (client (window_listener ev hidden q) = exit (client q)) as ->
        by (by destruct Hev as [-> | ->]).
      rewrite exit_exit. by case_decide.
    + destruct (decide (ev ∈ ls.*1)) as [Hin|Hin].
      * rewrite decide_True; [done|]. by apply list_elem_of_further.
      * rewrite decide_False; [done|].
        intros [?|?]%elem_of_cons; [by subst|done].
Qed.

(** When the page goes away, the client exits, once: however many times
    [bindEvents] was called, and whether or not [unbindEvents] was called
    after it, [beforeunload] and [pagehide] do to the client what one call
    of [exit] does. *)
Theorem unload_exits_once (ops : list PageOp) (ev : WindowEvent)
  (hidden : bool) :
  ev = BeforeUnload ∨ ev = PageHide →
  client (dispatch ev hidden (unbindEvents (bindEvents (run_page new_page ops))))
  = exit (client (run_page new_page ops)).
Proof.
  intros Hev. unfold dispatch. rewrite dispatch_unload_fold by done.
  assert (closures_ok (bindEvents (run_page new_page ops))) as Hok
    by (repeat apply addEventListener_ok; apply run_page_ok).
  rewrite (unbindEvents_same _ Hok).
  rewrite decide_True; [done|].
  unfold bindEvents. simpl. rewrite !fmap_app. simpl.
  destruct Hev as [-> | ->]; rewrite !elem_of_app, !list_elem_of_singleton;
    auto.
Qed.

Lemma unload_exits_once_witness :
  status (client (dispatch PageHide false (unbindEvents (bindEvents new_page))))
  = Some STATUS.exit.
Proof.
  etrans; [|apply (status_exit new_client)].
  exact (f_equal status
           (unload_exits_once [] PageHide false (or_intror eq_refl))).
Defined.

Lemma dispatch_visibility_fold hidden (ls : list (WindowEvent * nat)) q :
  inactive_emitted
    (foldl (fun q l => if decide (l.1 = VisibilityChange)
                       then window_listener VisibilityChange hidden q else q)
       q ls)
  = (inactive_emitted q
     + if hidden
       then length (filter (fun l => l.1 = VisibilityChange) ls)
       else 0)%nat
  ∧ client
      (foldl (fun q l => if decide (l.1 = VisibilityChange)
                         then window_listener VisibilityChange hidden q else q)
         q ls)
    = client q.
Proof.
  revert q. induction ls as [|l ls IH]; intros q.
  - simpl. split; [|done]. destruct hidden; lia.
  - cbn [foldl]. destruct (decide (l.1 = VisibilityChange)) as [E|E].
    + rewrite filter_cons_True by done.
      destruct (IH (window_listener VisibilityChange hidden q)) as [-> ->].
      destruct hidden; simpl; split; (lia || done).
    + rewrite filter_cons_False by done. apply IH.
Qed.

(** A change of visibility gives the application [inactive] only when the
    page is now hidden, and then once for every time [bindEvents] was
    called; the client itself is not touched. *)
Theorem visibility_change_emits_inactive (hidden : bool) (p : Page) :
  inactive_emitted (dispatch VisibilityChange hidden p)
  = (inactive_emitted p
     + if hidden
       then length (filter (fun l => l.1 = VisibilityChange)
                      (window_listeners p))
       else 0)%nat
  ∧ client (dispatch VisibilityChange hidden p) = client p.
Proof. apply dispatch_visibility_fold. Qed.
